(** * Ostap::Math::Bernstein: polynomials in the Bernstein basis

    A shallow embedding of [Ostap/Bernstein.h]: the class [Bernstein]
    (interval bounds, the call operator, the map between the interval and
    the unit interval), its two template constructors (from a range of
    coefficients, and the Newton-Bernstein interpolant of Ainsworth and
    Sanches) and the helpers of the namespace [Interpolation].

    Numbers.  A [double] or [long double] is an exact real number of [R]:
    rounding, infinities and NaN are outside this model, and an equality
    that the program reaches up to rounding is an equality here.  A
    division whose divisor is zero has no real value: it is the fault
    [DivisionByZero].  Where rounding decides what happens, which is
    whether two abscissas keep distinct images under [t], the map [t]
    is also given on binary64 numbers ([t_double]), with the constructor
    that uses it ([Bernstein_interpolant_double]).  Machine integers are
    written with their width where the width matters: the 32-bit
    counters [N] and [NY] of the interpolating constructor and the
    16-bit counter of its last loop. *)

From Stdlib Require Import PrimFloat SpecFloat FloatOps.
From Stdlib Require Import Reals Lra Lia List ZArith Bool PeanoNat Classical
  Permutation.
Import ListNotations.
Open Scope R_scope.

(** ** Outcomes *)

(** What can go wrong in a run: a division by zero, an access [v[i]] past
    the end of a [std::vector] (undefined behaviour in C++), and a loop
    that never exits. *)
Inductive fault : Set :=
| DivisionByZero
| OutOfRange
| Diverges.

Inductive result (A : Type) : Type :=
| Ok (a : A)
| Err (e : fault).

Arguments Ok {A} a.
Arguments Err {A} e.

Definition bind {A B : Type} (m : result A) (k : A -> result B) : result B :=
  match m with
  | Ok a => k a
  | Err e => Err e
  end.

Notation "v <- m ;; k" := (bind m (fun v => k))
  (at level 61, m at next level, right associativity).

(** A [for] loop over the successive values of its counter. *)
Fixpoint for_each {S : Type} (counter : list nat) (body : nat -> S -> result S)
  (s0 : S) : result S :=
  match counter with
  | [] => Ok s0
  | i :: rest => s1 <- body i s0 ;; for_each rest body s1
  end.

(** The values of a counter that runs downwards, [hi], [hi-1], ..., [lo]. *)
Definition down_to (hi lo : nat) : list nat := rev (seq lo (S hi - lo)).

(** ** Machine integers *)

(** [unsigned int]: a count converted to 32 bits. *)
Definition uint32 (n : nat) : nat := Z.to_nat (Z.of_nat n mod 2 ^ 32).

(** ** Arithmetic and vectors *)

Definition fdiv (a b : R) : result R :=
  if Req_dec_T b 0 then Err DivisionByZero else Ok (a / b).

(** [std::min] and [std::max], as <algorithm> defines them. *)
Definition std_min (a b : R) : R := if Rlt_dec b a then b else a.
Definition std_max (a b : R) : R := if Rlt_dec a b then b else a.

(** [v[i]] read. *)
Definition vget (v : list R) (i : nat) : result R :=
  match nth_error v i with
  | Some a => Ok a
  | None => Err OutOfRange
  end.

Fixpoint upd (v : list R) (i : nat) (a : R) : list R :=
  match v, i with
  | [], _ => []
  | _ :: v', O => a :: v'
  | b :: v', S i' => b :: upd v' i' a
  end.

(** [v[i] = a]. *)
Definition vset (v : list R) (i : nat) (a : R) : result (list R) :=
  if (i <? length v)%nat then Ok (upd v i a) else Err OutOfRange.

(** [std::transform ( first , last , d_first , op )]: the images of the
    source range overwrite the destination from its first element on;
    [std::copy] is the same with the identity. *)
Fixpoint transform (op : R -> result R) (src dst : list R) : result (list R) :=
  match src with
  | [] => Ok dst
  | a :: src' =>
      b <- op a ;;
      match dst with
      | [] => Err OutOfRange
      | _ :: dst' => r <- transform op src' dst' ;; Ok (b :: r)
      end
  end.

Definition std_copy (src dst : list R) : result (list R) :=
  transform (fun a => Ok a) src dst.

(** ** The class Bernstein *)

(** The coefficients are the state of the base class [PolySum]; the two
    bounds are the members [m_xmin] and [m_xmax]. *)
Record Bernstein : Type := mkBernstein {
  pars : list R;
  m_xmin : R;
  m_xmax : R
}.

(** Modelled from the spec: the constructor of [PolySum] from a degree
    ([Ostap/Polynomials.h] is not among the sources).  A polynomial of
    degree N owns N+1 coefficients, all zero at construction. *)
Definition PolySum (degree : nat) : list R := repeat 0 (S degree).

(** Modelled from the spec: [PolySum::setPar], not among the sources.
    It stores a coefficient by its index; [upd] leaves the vector alone
    when the index is past its end. *)
Definition setPar (i : nat) (value : R) (p : Bernstein) : Bernstein :=
  mkBernstein (upd (pars p) i value) (m_xmin p) (m_xmax p).

(** Modelled from the spec: [PolySum::degree], not among the sources.
    The degree is the number of coefficients minus one. *)
Definition degree (p : Bernstein) : nat := (length (pars p) - 1)%nat.

Definition xmin (p : Bernstein) : R := m_xmin p.
Definition xmax (p : Bernstein) : R := m_xmax p.

(** [x ( t )] and [t ( x )]: between the unit interval and the interval
    of the polynomial, in exact arithmetic.  As a map on the reals [t]
    is one to one; on doubles it rounds and is not ([t_double]). *)
Definition x (p : Bernstein) (t0 : R) : R :=
  m_xmin p + (m_xmax p - m_xmin p) * t0.

Definition t (p : Bernstein) (x0 : R) : result R :=
  fdiv (x0 - m_xmin p) (m_xmax p - m_xmin p).

(** Modelled from the spec: a pass of de Casteljau's algorithm, which the
    header declares ([casteljau]) and a source file that is not among the
    sources defines.  A pass blends every pair of neighbouring
    coefficients k and k+1 with the weight t. *)
Fixpoint casteljau_pass (t0 : R) (c : list R) : list R :=
  match c with
  | a :: ((b :: _) as c') => ((1 - t0) * a + t0 * b) :: casteljau_pass t0 c'
  | _ => []
  end.

(** Modelled from the spec: [n] passes of de Casteljau's algorithm. *)
Fixpoint casteljau_passes (n : nat) (t0 : R) (c : list R) : list R :=
  match n with
  | O => c
  | S n' => casteljau_passes n' t0 (casteljau_pass t0 c)
  end.

(** Modelled from the spec: [casteljau], declared in the header and
    defined in a source file that is not among the sources.  The
    polynomial of degree N takes N passes, and the coefficient that is
    left is its value. *)
Definition casteljau (c : list R) (t0 : R) : R :=
  hd 0 (casteljau_passes (length c - 1) t0 c).

(** Modelled from the spec: [evaluate], declared in the header and
    defined in a source file that is not among the sources.  The sum of
    c_k C(N,k) t^k (1-t)^(N-k) at t = t(x), by de Casteljau's algorithm. *)
Definition evaluate (p : Bernstein) (x0 : R) : result R :=
  t0 <- t p x0 ;; Ok (casteljau (pars p) t0).

(** [operator()]: zero on both sides of the interval. *)
Definition call (p : Bernstein) (x0 : R) : result R :=
  if Rlt_dec x0 (m_xmin p) then Ok 0
  else if Rgt_dec x0 (m_xmax p) then Ok 0
  else evaluate p x0.

(** ** The constructor from a range of coefficients *)

Section RangeConstructor.

(** The constructor of [PolySum] from a range is not among the sources:
    what it keeps of the range is a parameter. *)
Variable PolySum_range : list R -> list R.

Definition Bernstein_range (first_last : list R) (xmin xmax : R) : Bernstein :=
  mkBernstein (PolySum_range first_last) (std_min xmin xmax) (std_max xmin xmax).

End RangeConstructor.

(** ** The interpolating constructor *)

(** One divided difference of stage [s], in place. *)
Definition divided_difference (_t : list R) (s k : nat) (_f : list R)
  : result (list R) :=
  fk <- vget _f k ;;
  fk1 <- vget _f (k - 1) ;;
  xk <- vget _t k ;;
  xks <- vget _t (k - s) ;;
  q <- fdiv (fk - fk1) (xk - xks) ;;
  vset _f k q.

(** The update of [w[j]] and [c[j]] in stage [s]. *)
Definition blend (s : nat) (xs1 : R) (_f : list R) (j : nat)
  (wc : list R * list R) : result (list R * list R) :=
  let (w, c) := wc in
  wj1 <- vget w (j - 1) ;;
  a <- fdiv (INR j * wj1 * (1 - xs1)) (INR s) ;;
  wj <- vget w j ;;
  b <- fdiv (INR (s - j) * xs1 * wj) (INR s) ;;
  w' <- vset w j (a - b) ;;
  cj1 <- vget c (j - 1) ;;
  a' <- fdiv (INR j * cj1) (INR s) ;;
  cj <- vget c j ;;
  b' <- fdiv (INR (s - j) * cj) (INR s) ;;
  wj' <- vget w' j ;;
  fs <- vget _f s ;;
  c' <- vset c j (a' + b' + wj' * fs) ;;
  Ok (w', c').

(** The body of the loop over [s]. *)
Definition stage (N : nat) (_t : list R) (s : nat)
  (st : list R * list R * list R) : result (list R * list R * list R) :=
  let '(_f, w, c) := st in
  _f <- for_each (down_to (N - 1) s) (divided_difference _t s) _f ;;
  xs1 <- vget _t (s - 1) ;;
  wc <- for_each (down_to s 1) (blend s xs1 _f) (w, c) ;;
  let (w, c) := wc in
  w0 <- vget w 0 ;;
  w <- vset w 0 (- w0 * xs1) ;;
  c0 <- vget c 0 ;;
  w0' <- vget w 0 ;;
  fs <- vget _f s ;;
  c <- vset c 0 (c0 + w0' * fs) ;;
  Ok (_f, w, c).

(** The last loop: [for ( unsigned short i = 0 ; i < N ; ++i )].  The
    counter has 16 bits and [N] has 32: when [N] is above 65535 the
    counter returns to 0 before the test can fail, and the loop never
    exits. *)
Definition set_pars (N : nat) (c : list R) (self : Bernstein) : result Bernstein :=
  if (65535 <? Z.of_nat N)%Z then Err Diverges
  else for_each (seq 0 N) (fun i p => ci <- vget c i ;; Ok (setPar i ci p)) self.

Definition Bernstein_interpolant (xs ys : list R) (xmin xmax : R)
  : result Bernstein :=
  let self :=
    mkBernstein (PolySum (match xs with [] => 0 | _ => length xs - 1 end))
                (std_min xmin xmax) (std_max xmin xmax) in
  let N := uint32 (length xs) in
  let NY := uint32 (length ys) in
  _t <- transform (t self) xs (repeat 0 (Nat.max N 1)) ;;
  _f <- std_copy (firstn (Nat.min N NY) ys) (repeat 0 N) ;;
  w <- vset (repeat 0 N) 0 1 ;;
  f0 <- vget _f 0 ;;
  c <- vset (repeat 0 N) 0 f0 ;;
  st <- for_each (seq 1 (N - 1)) (stage N _t) (_f, w, c) ;;
  set_pars N (snd st) self.

(** ** The interpolating constructor, with [t] in double precision *)

(** The type [double]: a binary64 number, every operation rounded to the
    nearest one. *)
Definition double : Set := PrimFloat.float.

(** The real number that a finite double is.  An infinity and a NaN are
    no real numbers; they stand as 0 here. *)
Definition double_value (a : double) : R :=
  match Prim2SF a with
  | S754_finite s m e => IZR (if s then Z.neg m else Z.pos m) * powerRZ 2 e
  | _ => 0
  end.

Definition std_min_double (a b : double) : double :=
  if PrimFloat.ltb b a then b else a.
Definition std_max_double (a b : double) : double :=
  if PrimFloat.ltb a b then b else a.

(** [( x - m_xmin ) / ( m_xmax - m_xmin )] on doubles: two subtractions
    and a division, each of them rounded. *)
Definition double_t (lo hi v : double) : double :=
  PrimFloat.div (PrimFloat.sub v lo) (PrimFloat.sub hi lo).

(** [t ( x )] on doubles, with the divisor tested as [fdiv] tests it. *)
Definition t_double (lo hi v : double) : result double :=
  if PrimFloat.eqb (PrimFloat.sub hi lo) PrimFloat.zero
  then Err DivisionByZero
  else Ok (double_t lo hi v).

(** [std::transform] from doubles into a vector of [long double]: the
    conversion of a double is exact. *)
Fixpoint transform_double (op : double -> result double) (src : list double)
  (dst : list R) : result (list R) :=
  match src with
  | [] => Ok dst
  | a :: src' =>
      b <- op a ;;
      match dst with
      | [] => Err OutOfRange
      | _ :: dst' => r <- transform_double op src' dst' ;; Ok (double_value b :: r)
      end
  end.

(** The constructor from the vector [_t] on: what follows
    [std::transform] in its body. *)
Definition interpolant_from (N NY : nat) (ys _t : list R) (self : Bernstein)
  : result Bernstein :=
  _f <- std_copy (firstn (Nat.min N NY) ys) (repeat 0 N) ;;
  w <- vset (repeat 0 N) 0 1 ;;
  f0 <- vget _f 0 ;;
  c <- vset (repeat 0 N) 0 f0 ;;
  st <- for_each (seq 1 (N - 1)) (stage N _t) (_f, w, c) ;;
  set_pars N (snd st) self.

(** The constructor on abscissas and bounds that are doubles: [_t] holds
    what [t] computes in double precision; the arithmetic in
    [long double] that follows is exact, as in [Bernstein_interpolant]. *)
Definition Bernstein_interpolant_double (xs : list double) (ys : list R)
  (xmin xmax : double) : result Bernstein :=
  let lo := std_min_double xmin xmax in
  let hi := std_max_double xmin xmax in
  let self :=
    mkBernstein (PolySum (match xs with [] => 0 | _ => length xs - 1 end))
                (double_value lo) (double_value hi) in
  let N := uint32 (length xs) in
  let NY := uint32 (length ys) in
  _t <- transform_double (t_double lo hi) xs (repeat 0 (Nat.max N 1)) ;;
  interpolant_from N NY ys _t self.

(** ** The namespace Interpolation *)

Module Interpolation.

Definition bernstein (xs ys : list R) (xmin xmax : R) : result Bernstein :=
  Bernstein_interpolant xs ys xmin xmax.

(** The overload that samples a function at the abscissas. *)
Definition bernstein_func (func : R -> R) (xs : list R) (xmin xmax : R)
  : result Bernstein :=
  let N := uint32 (length xs) in
  f <- transform (fun a => Ok (func a)) xs (repeat 0 N) ;;
  Bernstein_interpolant xs f xmin xmax.

(** The grid of [lobatto] for [N] other than 0: the vector [x] when the
    interpolation starts.  [N] is an unsigned short, at most 65535.
    [M_PIl] is the real number [PI] and [std::cos] the real cosine; for
    [N] = 1 the quotient [pi_N1] is never used. *)
Definition lobatto_grid (N : nat) (xmin xmax : R) : result (list R) :=
  let x0 := repeat 0 (N + 1) in
  let x_min := std_min xmin xmax in
  let x_max := std_max xmin xmax in
  let xhs := 0.5 * (x_min + x_max) in
  let xhd := 0.5 * (x_max - x_min) in
  let pi_N1 := PI / INR (N - 1) in
  let _xi_ := fun k : nat => xhs - cos (pi_N1 * INR k) * xhd in
  x1 <- vset x0 0 x_min ;;
  x2 <- vset x1 (length x1 - 1) x_max ;;
  for_each (seq 1 (N - 2)) (fun i v => vset v i (_xi_ i)) x2.

Definition lobatto (func : R -> R) (N : nat) (xmin xmax : R)
  : result Bernstein :=
  if (N =? 0)%nat then
    let x0 := 0.5 * (xmin + xmax) in
    let y0 := func x0 in
    Bernstein_interpolant [x0] [y0] xmin xmax
  else
    grid <- lobatto_grid N xmin xmax ;;
    bernstein_func func grid xmin xmax.

End Interpolation.

(** ** Norms and division *)

(** Modelled from the spec: the norm for q_inv = 0, the largest absolute
    value of a coefficient ([norm] is not among the sources). *)
Definition norm_max (c : list R) : R :=
  fold_right (fun a m => Rmax (Rabs a) m) 0 c.

(** Modelled from the spec: the norm for q_inv = 0.5, the Euclidean norm
    of the coefficients. *)
Definition norm_euclid (c : list R) : R :=
  sqrt (fold_right (fun a s => a * a + s) 0 c).

(** Modelled from the spec: the norm for q_inv = 1, the sum of the
    absolute values of the coefficients. *)
Definition norm_sum (c : list R) : R :=
  fold_right (fun a s => Rabs a + s) 0 c.

(** [std::pow] of a base that is not negative. *)
Definition power (b e : R) : R :=
  if Req_dec_T b 0 then 0 else Rpower b e.

(** Modelled from the spec: the norm for any other q_inv,
    (sum |c_k|^(1/q_inv))^q_inv. *)
Definition norm_q (q_inv : R) (c : list R) : R :=
  power (fold_right (fun a s => power (Rabs a) (/ q_inv) + s) 0 c) q_inv.

(** Modelled from the spec: [norm], declared in the header with the
    three cases of its doc comment and defined in a source file that is
    not among the sources. *)
Definition norm (p : Bernstein) (q_inv : R) : R :=
  if Req_dec_T q_inv 0 then norm_max (pars p)
  else if Req_dec_T q_inv 0.5 then norm_euclid (pars p)
  else if Req_dec_T q_inv 1 then norm_sum (pars p)
  else norm_q q_inv (pars p).

Section Division.

(** The division of a polynomial by a divisor that is not zero and not
    of higher degree is neither among the sources nor described by the
    spec beyond its result: it is a parameter. *)
Variable long_division : Bernstein -> Bernstein -> Bernstein * Bernstein.

(** Modelled from the spec: the test for the zero polynomial, every
    coefficient being zero. *)
Definition zero (g : Bernstein) : bool :=
  forallb (fun c => if Req_dec_T c 0 then true else false) (pars g).

(** Modelled from the spec: [divmod], declared in the header and defined
    in a source file that is not among the sources.  When the divisor is the zero polynomial or its
    degree is above the degree of the dividend, the quotient is zero
    and the remainder is the dividend. *)
Definition divmod (f g : Bernstein) : Bernstein * Bernstein :=
  if zero g || (degree f <? degree g)%nat
  then (mkBernstein (PolySum 0) (m_xmin f) (m_xmax f), f)
  else long_division f g.

(** Modelled from the spec: [quotient], the first component of [divmod]. *)
Definition quotient (f g : Bernstein) : Bernstein := fst (divmod f g).

(** Modelled from the spec: [reminder], the second component of [divmod]. *)
Definition reminder (f g : Bernstein) : Bernstein := snd (divmod f g).

End Division.

(** ** The Bernstein basis and Newton's form, for the proofs *)

(** The sum of [F 0], ..., [F (n-1)]. *)
Fixpoint sumn (n : nat) (F : nat -> R) : R :=
  match n with
  | O => 0
  | S n' => sumn n' F + F n'
  end.

Fixpoint binom (n k : nat) : nat :=
  match n, k with
  | _, O => 1
  | O, S _ => 0
  | S n', S k' => binom n' k' + binom n' k
  end.

(** The basis polynomial C(n,k) u^k (1-u)^(n-k). *)
Definition basis (n k : nat) (u : R) : R :=
  INR (binom n k) * u ^ k * (1 - u) ^ (n - k).

(** The polynomial of degree [n] with the coefficients [c 0], ..., [c n]. *)
Definition bernstein_sum (n : nat) (c : nat -> R) (u : R) : R :=
  sumn (S n) (fun k => c k * basis n k u).

Section NewtonForm.

Variables tv fv : nat -> R.

(** The divided difference of order [s] on the nodes [i], ..., [i+s]. *)
Fixpoint divdiff (s i : nat) : R :=
  match s with
  | O => fv i
  | S s' => (divdiff s' (S i) - divdiff s' i) / (tv (i + s) - tv i)
  end.

(** The product of [u - tv l] over the [m] nodes from [i] on. *)
Fixpoint omega (i m : nat) (u : R) : R :=
  match m with
  | O => 1
  | S m' => omega i m' u * (u - tv (i + m'))
  end.

(** Newton's form on the nodes [i], ..., [i+s]. *)
Fixpoint newton (i s : nat) (u : R) : R :=
  match s with
  | O => fv i
  | S s' => newton i s' u + divdiff s i * omega i s u
  end.

End NewtonForm.

(** The values that the documentation of the constructor gives to the
    [N] abscissas: the first [N] of [ys], and zero for each one missing. *)
Definition samples (N : nat) (ys : list R) : list R :=
  firstn N (ys ++ repeat 0 N).

(** What the loops of a stage leave in [_f], [w] and [c], entry by entry. *)
Definition dd_new (_t _f : list R) (s k : nat) : R :=
  (nth k _f 0 - nth (k - 1) _f 0) / (nth k _t 0 - nth (k - s) _t 0).

Definition w_new (s : nat) (a : R) (w : nat -> R) (j : nat) : R :=
  INR j * w (j - 1)%nat * (1 - a) / INR s - INR (s - j) * a * w j / INR s.

Definition c_new (s : nat) (c : nat -> R) (j : nat) : R :=
  INR j * c (j - 1)%nat / INR s + INR (s - j) * c j / INR s.

(** The grid that the description of [lobatto] gives: the two bounds and,
    between them, the point xhs - cos(pi*k/(N-1))*xhd for every interior
    index k. *)
Definition lobatto_grid_described (N : nat) (xmin xmax : R) : list R :=
  let x_min := Rmin xmin xmax in
  let x_max := Rmax xmin xmax in
  let xhs := 0.5 * (x_min + x_max) in
  let xhd := 0.5 * (x_max - x_min) in
  [x_min]
    ++ map (fun k => xhs - cos (PI * INR k / INR (N - 1)) * xhd) (seq 1 (N - 1))
    ++ [x_max].

(** The value that the documentation of the class gives to a polynomial
    with the coefficients a_0, ..., a_n: the sum of a_k B^n_k, with
    B^n_k(u) = C(n,k) u^k (1-u)^(n-k), at the point u of the unit
    interval that [t] makes of [x0]. *)
Definition bernstein_value (p : Bernstein) (x0 : R) : R :=
  bernstein_sum (degree p) (fun k => nth k (pars p) 0)
    ((x0 - m_xmin p) / (m_xmax p - m_xmin p)).

(** A polynomial in the powers of x, by its coefficients from the
    constant one on: the samples of an interpolation are compared with
    its values. *)
Fixpoint horner (q : list R) (x0 : R) : R :=
  match q with
  | [] => 0
  | a :: q' => a + x0 * horner q' x0
  end.

(** * Proofs *)

(** ** Outcomes, vectors, loops *)

Lemma fdiv_ok (a b : R) : b <> 0 -> fdiv a b = Ok (a / b).
Proof.
  intros Hb. unfold fdiv. destruct (Req_dec_T b 0) as [E | _]; [contradiction | reflexivity].
Qed.

Lemma fdiv_zero (a : R) : fdiv a 0 = Err DivisionByZero.
Proof.
  unfold fdiv. destruct (Req_dec_T 0 0) as [_ | E]; [reflexivity | now elim E].
Qed.

Lemma vget_ok (v : list R) (i : nat) :
  (i < length v)%nat -> vget v i = Ok (nth i v 0).
Proof.
  intros Hi. unfold vget.
  destruct (nth_error v i) as [a |] eqn:E.
  - now rewrite (nth_error_nth v i 0 E).
  - apply nth_error_None in E. lia.
Qed.

Lemma vset_ok (v : list R) (i : nat) (a : R) :
  (i < length v)%nat -> vset v i a = Ok (upd v i a).
Proof.
  intros Hi. unfold vset.
  destruct (Nat.ltb_spec i (length v)); [reflexivity | lia].
Qed.

Lemma length_upd (v : list R) (i : nat) (a : R) : length (upd v i a) = length v.
Proof.
  revert i. induction v as [| b v IH]; intros [| i]; simpl; auto.
Qed.

Lemma nth_upd_same (v : list R) (i : nat) (a d : R) :
  (i < length v)%nat -> nth i (upd v i a) d = a.
Proof.
  revert i. induction v as [| b v IH]; intros [| i]; simpl; intros H; try lia; auto.
  apply IH. lia.
Qed.

Lemma nth_upd_other (v : list R) (i j : nat) (a d : R) :
  i <> j -> nth j (upd v i a) d = nth j v d.
Proof.
  revert i j. induction v as [| b v IH]; intros [| i] [| j]; simpl; intros H; auto;
    try (now elim H).
Qed.

Lemma for_each_app {S : Type} (l1 l2 : list nat) (body : nat -> S -> result S) (s0 : S) :
  for_each (l1 ++ l2) body s0 = (s1 <- for_each l1 body s0 ;; for_each l2 body s1).
Proof.
  revert s0. induction l1 as [| i l1 IH]; intros s0; simpl; [reflexivity |].
  destruct (body i s0); simpl; auto.
Qed.

Lemma down_to_S (lo m : nat) :
  rev (seq lo (S m)) = (lo + m)%nat :: rev (seq lo m).
Proof.
  rewrite seq_S, rev_app_distr. reflexivity.
Qed.

(** ** Sums and binomial coefficients *)

Lemma sumn_ext (n : nat) (F G : nat -> R) :
  (forall k, (k < n)%nat -> F k = G k) -> sumn n F = sumn n G.
Proof.
  induction n as [| n IH]; intros H; simpl; [reflexivity |].
  rewrite IH, H; auto.
Qed.

Lemma sumn_plus (n : nat) (F G : nat -> R) :
  sumn n (fun k => F k + G k) = sumn n F + sumn n G.
Proof.
  induction n as [| n IH]; simpl; [ring | rewrite IH; ring].
Qed.

Lemma sumn_scal (n : nat) (a : R) (F : nat -> R) :
  sumn n (fun k => a * F k) = a * sumn n F.
Proof.
  induction n as [| n IH]; simpl; [ring | rewrite IH; ring].
Qed.

Lemma sumn_shift (n : nat) (F : nat -> R) :
  sumn (S n) F = F O + sumn n (fun k => F (S k)).
Proof.
  induction n as [| n IH]; [simpl; ring |].
  change (sumn (S (S n)) F) with (sumn (S n) F + F (S n)).
  rewrite IH. simpl. ring.
Qed.

Lemma binom_above (n k : nat) : (n < k)%nat -> binom n k = O.
Proof.
  revert k. induction n as [| n IH]; intros [| k] H; simpl; try lia.
  rewrite !IH; lia.
Qed.

Lemma binom_diag (n : nat) : binom n n = 1%nat.
Proof.
  induction n as [| n IH]; simpl; [reflexivity |].
  rewrite IH, binom_above; lia.
Qed.

Lemma binom_pascal (n k : nat) :
  binom (S n) (S k) = (binom n k + binom n (S k))%nat.
Proof. reflexivity. Qed.

Lemma binom_0_r (n : nat) : binom n 0 = 1%nat.
Proof. destruct n; reflexivity. Qed.

(** The two absorption identities, together. *)

Lemma binom_absorb (n : nat) :
  (forall k, (S k * binom (S n) (S k) = S n * binom n k)%nat) /\
  (forall k, (S n * binom n k + k * binom (S n) k = S n * binom (S n) k)%nat).
Proof.
  assert (Step : forall m,
    (forall k, (S k * binom (S m) (S k) = S m * binom m k)%nat) ->
    (forall k, (S m * binom m k + k * binom (S m) k = S m * binom (S m) k)%nat)).
  { intros m Hm [| k].
    - rewrite !binom_0_r. lia.
    - rewrite (Hm k), binom_pascal. ring. }
  induction n as [| n [IH1 IH2]].
  - assert (H0 : forall k, (S k * binom 1 (S k) = 1 * binom 0 k)%nat).
    { intros [| k]; simpl; lia. }
    split; [exact H0 | exact (Step O H0)].
  - assert (H1 : forall k, (S k * binom (S (S n)) (S k) = S (S n) * binom (S n) k)%nat).
    { intros k. specialize (IH1 k). specialize (IH2 k).
      rewrite (binom_pascal (S n) k).
      replace (S k * (binom (S n) k + binom (S n) (S k)))%nat
        with (binom (S n) k + k * binom (S n) k + S k * binom (S n) (S k))%nat by ring.
      rewrite IH1.
      replace (S (S n) * binom (S n) k)%nat
        with (binom (S n) k + S n * binom (S n) k)%nat by ring.
      rewrite <- IH2. ring. }
    split; [exact H1 | exact (Step (S n) H1)].
Qed.

(** ** The Bernstein basis: raising the degree by one *)

Lemma basis_up_left (n k : nat) (u : R) :
  (k <= n)%nat ->
  INR (S k) / INR (S n) * basis (S n) (S k) u = u * basis n k u.
Proof.
  intros Hk. unfold basis.
  destruct (binom_absorb n) as [A _]. specialize (A k).
  apply (f_equal INR) in A. rewrite !mult_INR in A.
  replace (S n - S k)%nat with (n - k)%nat by lia.
  rewrite <- (tech_pow_Rmult u k).
  assert (Hn : INR (S n) <> 0) by (apply not_0_INR; lia).
  transitivity (INR (S k) * INR (binom (S n) (S k)) / INR (S n)
                * (u * u ^ k) * (1 - u) ^ (n - k)).
  - field. exact Hn.
  - rewrite A. field. exact Hn.
Qed.

Lemma basis_up_right (n k : nat) (u : R) :
  (k <= n)%nat ->
  INR (S n - k) / INR (S n) * basis (S n) k u = (1 - u) * basis n k u.
Proof.
  intros Hk. unfold basis.
  destruct (binom_absorb n) as [_ A]. specialize (A k).
  apply (f_equal INR) in A. rewrite plus_INR, !mult_INR in A.
  rewrite minus_INR by lia.
  replace (S n - k)%nat with (S (n - k)) by lia.
  rewrite <- (tech_pow_Rmult (1 - u) (n - k)).
  assert (Hn : INR (S n) <> 0) by (apply not_0_INR; lia).
  transitivity ((INR (S n) * INR (binom (S n) k) - INR k * INR (binom (S n) k))
                / INR (S n) * u ^ k * ((1 - u) * (1 - u) ^ (n - k))).
  - field. exact Hn.
  - rewrite <- A. field. exact Hn.
Qed.

Lemma bernstein_sum_ext (n : nat) (c c' : nat -> R) (u : R) :
  (forall k, (k <= n)%nat -> c k = c' k) ->
  bernstein_sum n c u = bernstein_sum n c' u.
Proof.
  intros H. unfold bernstein_sum. apply sumn_ext.
  intros k Hk. rewrite H by lia. reflexivity.
Qed.

(** The product by u, one degree up. *)
Lemma bernstein_sum_times_u (n : nat) (c : nat -> R) (u : R) :
  sumn (S (S n)) (fun j => INR j / INR (S n) * c (j - 1)%nat * basis (S n) j u)
  = u * bernstein_sum n c u.
Proof.
  rewrite sumn_shift. unfold bernstein_sum. rewrite <- sumn_scal.
  replace (INR 0 / INR (S n) * c (0 - 1)%nat * basis (S n) 0 u) with 0
    by (simpl INR; unfold Rdiv; ring).
  rewrite Rplus_0_l. apply sumn_ext. intros k Hk.
  replace (S k - 1)%nat with k by lia.
  transitivity (c k * (INR (S k) / INR (S n) * basis (S n) (S k) u)); [ring |].
  rewrite basis_up_left by lia. ring.
Qed.

(** The product by 1-u, one degree up. *)
Lemma bernstein_sum_times_1u (n : nat) (c : nat -> R) (u : R) :
  sumn (S (S n)) (fun j => INR (S n - j) / INR (S n) * c j * basis (S n) j u)
  = (1 - u) * bernstein_sum n c u.
Proof.
  change (sumn (S (S n)) ?F) with (sumn (S n) F + F (S n)).
  cbv beta. rewrite Nat.sub_diag. unfold bernstein_sum. rewrite <- sumn_scal.
  replace (INR 0 / INR (S n) * c (S n) * basis (S n) (S n) u) with 0
    by (simpl INR; unfold Rdiv; ring).
  rewrite Rplus_0_r. apply sumn_ext. intros k Hk.
  transitivity (c k * (INR (S n - k) / INR (S n) * basis (S n) k u)); [ring |].
  rewrite basis_up_right by lia. ring.
Qed.

(** What a stage does to [w]: the product by [u - a]. *)
Lemma bernstein_sum_linear_factor (n : nat) (W : nat -> R) (a u : R) :
  bernstein_sum (S n) (w_new (S n) a W) u = (u - a) * bernstein_sum n W u.
Proof.
  unfold w_new.
  assert (Hn : INR (S n) <> 0) by (apply not_0_INR; lia).
  transitivity
    ((1 - a) * sumn (S (S n))
                 (fun j => INR j / INR (S n) * W (j - 1)%nat * basis (S n) j u)
     + (- a) * sumn (S (S n))
                 (fun j => INR (S n - j) / INR (S n) * W j * basis (S n) j u)).
  - unfold bernstein_sum. rewrite <- !sumn_scal, <- sumn_plus.
    apply sumn_ext. intros k _. field. exact Hn.
  - rewrite bernstein_sum_times_u, bernstein_sum_times_1u. ring.
Qed.

(** What a stage does to [c]: the same polynomial, one degree up. *)
Lemma bernstein_sum_elevate (n : nat) (C : nat -> R) (u : R) :
  bernstein_sum (S n) (c_new (S n) C) u = bernstein_sum n C u.
Proof.
  unfold c_new.
  assert (Hn : INR (S n) <> 0) by (apply not_0_INR; lia).
  transitivity
    (sumn (S (S n)) (fun j => INR j / INR (S n) * C (j - 1)%nat * basis (S n) j u)
     + sumn (S (S n)) (fun j => INR (S n - j) / INR (S n) * C j * basis (S n) j u)).
  - unfold bernstein_sum. rewrite <- sumn_plus.
    apply sumn_ext. intros k _. field. exact Hn.
  - rewrite bernstein_sum_times_u, bernstein_sum_times_1u. ring.
Qed.

Lemma bernstein_sum_plus_scal (n : nat) (C W : nat -> R) (a u : R) :
  bernstein_sum n (fun j => C j + W j * a) u
  = bernstein_sum n C u + a * bernstein_sum n W u.
Proof.
  unfold bernstein_sum. rewrite <- sumn_scal, <- sumn_plus.
  apply sumn_ext. intros k _. ring.
Qed.

(** ** De Casteljau's algorithm computes the Bernstein sum *)

Lemma length_casteljau_pass (u : R) (c : list R) :
  length (casteljau_pass u c) = (length c - 1)%nat.
Proof.
  induction c as [| a [| b c] IH]; simpl in *; auto.
  rewrite IH. lia.
Qed.

Lemma nth_casteljau_pass (u : R) (c : list R) (k : nat) :
  (S k < length c)%nat ->
  nth k (casteljau_pass u c) 0 = (1 - u) * nth k c 0 + u * nth (S k) c 0.
Proof.
  revert k. induction c as [| a [| b c] IH]; intros k Hk; simpl in Hk; try lia.
  destruct k as [| k].
  - reflexivity.
  - change (casteljau_pass u (a :: b :: c))
      with (((1 - u) * a + u * b) :: casteljau_pass u (b :: c)).
    change (nth (S k) (?h :: ?r) 0) with (nth k r 0).
    rewrite IH by (simpl; lia). reflexivity.
Qed.

Lemma casteljau_bernstein_sum (n : nat) (c : list R) (u : R) :
  length c = S n ->
  casteljau c u = bernstein_sum n (fun k => nth k c 0) u.
Proof.
  revert c. induction n as [| n IH]; intros c Hc.
  - destruct c as [| a [| b c]]; simpl in Hc; try lia.
    unfold casteljau, bernstein_sum, basis. simpl. ring.
  - assert (Hp : length (casteljau_pass u c) = S n)
      by (rewrite length_casteljau_pass; lia).
    assert (E : casteljau c u = casteljau (casteljau_pass u c) u).
    { unfold casteljau. rewrite Hc, Hp.
      replace (S (S n) - 1)%nat with (S n) by lia.
      replace (S n - 1)%nat with n by lia. reflexivity. }
    rewrite E, (IH _ Hp).
    rewrite (bernstein_sum_ext n _
               (fun k => (1 - u) * nth k c 0 + u * nth (S k) c 0))
      by (intros k Hk; apply nth_casteljau_pass; lia).
    assert (Hn : INR (S n) <> 0) by (apply not_0_INR; lia).
    transitivity
      ((1 - u) * bernstein_sum n (fun k => nth k c 0) u
       + u * bernstein_sum n (fun k => nth (S k) c 0) u).
    + unfold bernstein_sum. rewrite <- !sumn_scal, <- sumn_plus.
      apply sumn_ext. intros k _. ring.
    + rewrite <- bernstein_sum_times_1u, <- bernstein_sum_times_u.
      unfold bernstein_sum. rewrite <- sumn_plus.
      apply sumn_ext. intros k Hk.
      destruct k as [| k].
      * replace (S n - 0)%nat with (S n) by lia.
        change (INR 0) with 0. field. exact Hn.
      * replace (S k - 1)%nat with k by lia.
        rewrite (minus_INR (S n) (S k)) by lia. field. exact Hn.
Qed.

(** ** Newton's form interpolates *)

Section NewtonFormProofs.

Variables tv fv : nat -> R.
Variable n : nat.
Hypothesis distinct : forall a b, (a < b <= n)%nat -> tv a <> tv b.

Lemma newton_S (i s : nat) (u : R) :
  newton tv fv i (S s) u
  = newton tv fv i s u + divdiff tv fv (S s) i * omega tv i (S s) u.
Proof. reflexivity. Qed.

Lemma omega_S (i m : nat) (u : R) :
  omega tv i (S m) u = omega tv i m u * (u - tv (i + m)%nat).
Proof. reflexivity. Qed.

Lemma omega_front (i m : nat) (u : R) :
  omega tv i (S m) u = (u - tv i) * omega tv (S i) m u.
Proof.
  induction m as [| m IH].
  - simpl. rewrite Nat.add_0_r. ring.
  - rewrite omega_S, IH, (omega_S (S i) m).
    replace (S i + m)%nat with (i + S m)%nat by lia. ring.
Qed.

Lemma omega_node (i m k : nat) :
  (k < m)%nat -> omega tv i m (tv (i + k)%nat) = 0.
Proof.
  induction m as [| m IH]; intros Hk; [lia |].
  rewrite omega_S.
  destruct (Nat.eq_dec k m) as [-> | Hne].
  - ring.
  - rewrite IH by lia. ring.
Qed.

Lemma divdiff_step (s i : nat) :
  (i + S s <= n)%nat ->
  divdiff tv fv (S s) i * (tv (i + S s)%nat - tv i)
  = divdiff tv fv s (S i) - divdiff tv fv s i.
Proof.
  intros Hi.
  assert (Hd : tv (i + S s)%nat - tv i <> 0).
  { intros E. apply (distinct i (i + S s)%nat); [lia | lra]. }
  change (divdiff tv fv (S s) i)
    with ((divdiff tv fv s (S i) - divdiff tv fv s i) / (tv (i + S s)%nat - tv i)).
  field. exact Hd.
Qed.

(** Newton's form on the nodes i..i+s+1, read from the last node back. *)
Lemma newton_front (s i : nat) (u : R) :
  (i + S s <= n)%nat ->
  newton tv fv i (S s) u
  = newton tv fv (S i) s u + divdiff tv fv (S s) i * omega tv (S i) (S s) u.
Proof.
  revert i. induction s as [| s IH]; intros i Hi.
  - rewrite newton_S. pose proof (divdiff_step O i Hi) as E.
    change (divdiff tv fv 0 (S i)) with (fv (S i)) in E.
    change (divdiff tv fv 0 i) with (fv i) in E.
    set (DD := divdiff tv fv 1 i) in *.
    rewrite !omega_S. simpl omega. simpl newton.
    replace (S i + 0)%nat with (i + 1)%nat by lia.
    rewrite Nat.add_0_r.
    replace (fv (S i)) with (fv i + DD * (tv (i + 1)%nat - tv i)) by lra.
    ring.
  - rewrite newton_S, (IH i) by lia.
    rewrite (newton_S (S i) s), (omega_front i (S s)), (omega_S (S i) (S s)).
    pose proof (divdiff_step (S s) i Hi) as E.
    replace (S i + S s)%nat with (i + S (S s))%nat by lia.
    set (DD := divdiff tv fv (S (S s)) i) in *.
    set (W := omega tv (S i) (S s) u).
    replace (divdiff tv fv (S s) (S i))
      with (divdiff tv fv (S s) i + DD * (tv (i + S (S s))%nat - tv i)) by lra.
    ring.
Qed.

Lemma newton_interpolates (s i k : nat) :
  (k <= s)%nat -> (i + s <= n)%nat ->
  newton tv fv i s (tv (i + k)%nat) = fv (i + k)%nat.
Proof.
  revert i k. induction s as [| s IH]; intros i k Hk Hi.
  - replace k with O by lia. rewrite Nat.add_0_r. reflexivity.
  - destruct (Nat.eq_dec k (S s)) as [-> | Hne].
    + rewrite newton_front by lia.
      replace (i + S s)%nat with (S i + s)%nat by lia.
      rewrite (omega_node (S i) (S s) s) by lia.
      rewrite IH by lia. ring.
    + rewrite newton_S, omega_node by lia.
      rewrite IH by lia. ring.
Qed.

End NewtonFormProofs.

(** ** The loops of the interpolating constructor *)

Ltac in_range := rewrite ?length_upd in *; simpl length in *; lia.

(** The loop of the divided differences, for k from [s+m-1] down to [s]. *)
Lemma divided_difference_loop (_t : list R) (s : nat) :
  (1 <= s)%nat ->
  forall (m : nat) (f : list R),
    (s + m <= length f)%nat ->
    (length f <= length _t)%nat ->
    (forall k, (s <= k < s + m)%nat -> nth k _t 0 <> nth (k - s) _t 0) ->
    exists f',
      for_each (rev (seq s m)) (divided_difference _t s) f = Ok f'
      /\ length f' = length f
      /\ forall k, nth k f' 0
                   = if ((s <=? k) && (k <? s + m))%nat
                     then dd_new _t f s k else nth k f 0.
Proof.
  intros Hs. induction m as [| m IH]; intros f Hf Ht Hd.
  - exists f. repeat split.
    intros k. destruct (Nat.leb_spec s k), (Nat.ltb_spec k (s + 0)); simpl; auto; lia.
  - rewrite down_to_S. cbn [for_each]. unfold divided_difference at 1.
    rewrite (vget_ok f (s + m)) by lia. cbn [bind].
    rewrite (vget_ok f (s + m - 1)) by lia. cbn [bind].
    rewrite (vget_ok _t (s + m)) by lia. cbn [bind].
    rewrite (vget_ok _t (s + m - s)) by lia. cbn [bind].
    rewrite fdiv_ok by (intros E; apply (Hd (s + m)%nat); [lia | lra]). cbn [bind].
    rewrite vset_ok by lia. cbn [bind].
    fold (dd_new _t f s (s + m)).
    set (f1 := upd f (s + m) (dd_new _t f s (s + m))).
    destruct (IH f1) as (f' & Erun & Elen & Enth).
    + unfold f1. in_range.
    + unfold f1. in_range.
    + intros k Hk. apply Hd. lia.
    + exists f'. split; [exact Erun |]. split.
      * rewrite Elen. unfold f1. apply length_upd.
      * intros k. rewrite Enth.
        destruct (Nat.leb_spec s k), (Nat.ltb_spec k (s + m)),
          (Nat.ltb_spec k (s + S m)); cbn [andb]; try lia.
        -- unfold dd_new, f1. rewrite !nth_upd_other by lia. reflexivity.
        -- assert (k = (s + m)%nat) as -> by lia.
           unfold f1. apply nth_upd_same. lia.
        -- unfold f1. apply nth_upd_other. lia.
        -- unfold f1. apply nth_upd_other. lia.
Qed.

(** The loop over [w] and [c], for j from [m] down to 1. *)
Lemma blend_loop (s : nat) (a : R) (f : list R) :
  (1 <= s)%nat -> (s < length f)%nat ->
  forall (m : nat) (w c : list R),
    (m < length w)%nat -> length c = length w ->
    exists w' c',
      for_each (rev (seq 1 m)) (blend s a f) (w, c) = Ok (w', c')
      /\ length w' = length w /\ length c' = length c
      /\ (forall j, nth j w' 0
                    = if ((1 <=? j) && (j <=? m))%nat
                      then w_new s a (fun i => nth i w 0) j else nth j w 0)
      /\ (forall j, nth j c' 0
                    = if ((1 <=? j) && (j <=? m))%nat
                      then c_new s (fun i => nth i c 0) j
                           + w_new s a (fun i => nth i w 0) j * nth s f 0
                      else nth j c 0).
Proof.
  intros Hs Hf.
  assert (Hs0 : INR s <> 0) by (apply not_0_INR; lia).
  induction m as [| m IH]; intros w c Hw Hc.
  - exists w, c. repeat split; intros j;
      destruct (Nat.leb_spec 1 j), (Nat.leb_spec j 0); cbn [andb]; auto; lia.
  - rewrite down_to_S. change (1 + m)%nat with (S m).
    cbn [for_each]. unfold blend at 1.
    rewrite (vget_ok w (S m - 1)) by lia. cbn [bind].
    rewrite fdiv_ok by exact Hs0. cbn [bind].
    rewrite (vget_ok w (S m)) by lia. cbn [bind].
    rewrite fdiv_ok by exact Hs0. cbn [bind].
    rewrite vset_ok by lia. cbn [bind].
    rewrite (vget_ok c (S m - 1)) by lia. cbn [bind].
    rewrite fdiv_ok by exact Hs0. cbn [bind].
    rewrite (vget_ok c (S m)) by lia. cbn [bind].
    rewrite fdiv_ok by exact Hs0. cbn [bind].
    rewrite vget_ok by in_range. cbn [bind].
    rewrite (vget_ok f s) by lia. cbn [bind].
    rewrite vset_ok by lia. cbn [bind].
    rewrite nth_upd_same by lia.
    fold (w_new s a (fun i => nth i w 0) (S m)).
    fold (c_new s (fun i => nth i c 0) (S m)).
    set (wS := w_new s a (fun i => nth i w 0) (S m)).
    set (cS := c_new s (fun i => nth i c 0) (S m) + wS * nth s f 0).
    destruct (IH (upd w (S m) wS) (upd c (S m) cS))
      as (w' & c' & Erun & Elw & Elc & Ew & Ec).
    + in_range.
    + rewrite !length_upd. exact Hc.
    + exists w', c'. split; [exact Erun |].
      rewrite Elw, Elc, !length_upd. repeat split.
      * intros j. rewrite Ew.
        destruct (Nat.leb_spec 1 j), (Nat.leb_spec j m), (Nat.leb_spec j (S m));
          cbn [andb]; try lia.
        -- unfold w_new. rewrite !nth_upd_other by lia. reflexivity.
        -- assert (j = S m) as -> by lia. apply nth_upd_same. lia.
        -- apply nth_upd_other. lia.
        -- apply nth_upd_other. lia.
      * intros j. rewrite Ec.
        destruct (Nat.leb_spec 1 j), (Nat.leb_spec j m), (Nat.leb_spec j (S m));
          cbn [andb]; try lia.
        -- unfold c_new, w_new. rewrite !nth_upd_other by lia. reflexivity.
        -- assert (j = S m) as -> by lia. apply nth_upd_same. lia.
        -- apply nth_upd_other. lia.
        -- apply nth_upd_other. lia.
Qed.

(** One stage, from the state it finds to the state it leaves. *)
Lemma stage_run (N : nat) (_t : list R) (s : nat) (f w c : list R) :
  (1 <= s < N)%nat ->
  length _t = N -> length f = N -> length w = N -> length c = N ->
  (forall k, (s <= k < N)%nat -> nth k _t 0 <> nth (k - s) _t 0) ->
  exists f' w' c',
    stage N _t s (f, w, c) = Ok (f', w', c')
    /\ length f' = N /\ length w' = N /\ length c' = N
    /\ (forall k, nth k f' 0
                  = if ((s <=? k) && (k <? N))%nat
                    then dd_new _t f s k else nth k f 0)
    /\ (forall j, (j <= s)%nat ->
                  nth j w' 0
                  = w_new s (nth (s - 1) _t 0) (fun i => nth i w 0) j)
    /\ (forall j, (j <= s)%nat ->
                  nth j c' 0
                  = c_new s (fun i => nth i c 0) j
                    + w_new s (nth (s - 1) _t 0) (fun i => nth i w 0) j
                      * nth s f' 0).
Proof.
  intros Hs Ht Hf Hw Hc Hd.
  assert (Hs0 : INR s <> 0) by (apply not_0_INR; lia).
  unfold stage, down_to.
  replace (S (N - 1) - s)%nat with (N - s)%nat by lia.
  replace (S s - 1)%nat with s by lia.
  destruct (divided_difference_loop _t s (proj1 Hs) (N - s) f)
    as (f' & Ef & Elf & Enf); try lia.
  { intros k Hk. apply Hd. lia. }
  rewrite Ef. cbn [bind].
  rewrite (vget_ok _t (s - 1)) by lia. cbn [bind].
  set (a := nth (s - 1) _t 0).
  destruct (blend_loop s a f' (proj1 Hs) ltac:(lia) s w c)
    as (w1 & c1 & Ewc & Elw & Elc & Enw & Enc); try lia.
  rewrite Ewc. cbn [bind].
  rewrite (vget_ok w1 0) by lia. cbn [bind].
  rewrite vset_ok by lia. cbn [bind].
  rewrite (vget_ok c1 0) by lia. cbn [bind].
  rewrite vget_ok by in_range. cbn [bind].
  rewrite (vget_ok f' s) by lia. cbn [bind].
  rewrite vset_ok by lia. cbn [bind].
  rewrite nth_upd_same by lia.
  eexists _, _, _. split; [reflexivity |].
  rewrite !length_upd. repeat split; try lia.
  - intros k. rewrite Enf. replace (s + (N - s))%nat with N by lia. reflexivity.
  - intros j Hj. destruct j as [| j].
    + rewrite nth_upd_same by lia. rewrite Enw. cbn [Nat.leb andb].
      unfold w_new. replace (s - 0)%nat with s by lia.
      change (INR 0) with 0. field. exact Hs0.
    + rewrite nth_upd_other by lia. rewrite Enw.
      destruct (Nat.leb_spec 1 (S j)), (Nat.leb_spec (S j) s); cbn [andb]; try lia.
      reflexivity.
  - intros j Hj. destruct j as [| j].
    + rewrite nth_upd_same by lia. rewrite Enw, Enc. cbn [Nat.leb andb].
      unfold w_new, c_new. replace (s - 0)%nat with s by lia.
      change (INR 0) with 0. field. exact Hs0.
    + rewrite nth_upd_other by lia. rewrite Enc.
      destruct (Nat.leb_spec 1 (S j)), (Nat.leb_spec (S j) s); cbn [andb]; try lia.
      reflexivity.
Qed.

Section Stages.

Variables (N : nat) (_t f0 : list R).
Hypothesis HN : (1 <= N)%nat.
Hypothesis Ht : length _t = N.
Hypothesis Hf : length f0 = N.
Hypothesis distinct :
  forall a b, (a < b <= N - 1)%nat -> nth a _t 0 <> nth b _t 0.

Let tv := fun k => nth k _t 0.
Let fv := fun k => nth k f0 0.

(** After [m] stages: the divided differences up to the order [m], the
    product of the first [m] linear factors in [w], Newton's form on
    the first [m+1] nodes in [c], both in the basis of degree [m]. *)
Lemma stages_run (m : nat) :
  (m < N)%nat ->
  exists f w c,
    for_each (seq 1 m) (stage N _t)
      (f0, upd (repeat 0 N) 0 1, upd (repeat 0 N) 0 (nth 0 f0 0))
    = Ok (f, w, c)
    /\ length f = N /\ length w = N /\ length c = N
    /\ (forall k, (k < N)%nat ->
                  nth k f 0 = divdiff tv fv (Nat.min k m) (k - Nat.min k m))
    /\ (forall u, bernstein_sum m (fun i => nth i w 0) u = omega tv 0 m u)
    /\ (forall u, bernstein_sum m (fun i => nth i c 0) u = newton tv fv 0 m u).
Proof.
  induction m as [| m IH]; intros Hm.
  - eexists _, _, _. split; [reflexivity |].
    rewrite !length_upd, !repeat_length. repeat split; auto.
    + intros k Hk. rewrite Nat.min_0_r, Nat.sub_0_r. reflexivity.
    + intros u. unfold bernstein_sum, basis. cbn [sumn].
      rewrite nth_upd_same by (rewrite repeat_length; lia). simpl. ring.
    + intros u. unfold bernstein_sum, basis. cbn [sumn].
      rewrite nth_upd_same by (rewrite repeat_length; lia). simpl. unfold fv. ring.
  - destruct IH as (f & w & c & Erun & Lf & Lw & Lc & If & Iw & Ic); [lia |].
    rewrite seq_S, for_each_app, Erun. cbn [bind for_each].
    change (1 + m)%nat with (S m).
    destruct (stage_run N _t (S m) f w c) as (f' & w' & c' & Es & Lf' & Lw' & Lc' & Nf & Nw & Nc);
      try assumption; try lia.
    { intros k Hk. intros E. apply (distinct (k - S m) k); [lia | now symmetry]. }
    rewrite Es. cbn [bind].
    assert (If' : forall k, (k < N)%nat ->
              nth k f' 0 = divdiff tv fv (Nat.min k (S m)) (k - Nat.min k (S m))).
    { intros k Hk. rewrite Nf.
      destruct (Nat.leb_spec (S m) k), (Nat.ltb_spec k N); cbn [andb]; try lia.
      - unfold dd_new. rewrite !If by lia.
        rewrite (Nat.min_r k m), (Nat.min_r (k - 1) m), (Nat.min_r k (S m)) by lia.
        replace (k - m)%nat with (S (k - S m)) by lia.
        replace (k - 1 - m)%nat with (k - S m)%nat by lia.
        cbn [divdiff]. unfold tv.
        replace (k - S m + S m)%nat with k by lia. reflexivity.
      - rewrite If by lia.
        rewrite (Nat.min_l k m), (Nat.min_l k (S m)) by lia. reflexivity. }
    replace (S m - 1)%nat with m in * by lia.
    assert (Iw' : forall u, bernstein_sum (S m) (fun i => nth i w' 0) u
                            = omega tv 0 (S m) u).
    { intros u.
      rewrite (bernstein_sum_ext (S m) _ (w_new (S m) (nth m _t 0) (fun i => nth i w 0)))
        by (intros k Hk; apply Nw; exact Hk).
      rewrite bernstein_sum_linear_factor, Iw.
      rewrite omega_S. unfold tv. simpl. ring. }
    eexists _, _, _. split; [reflexivity |].
    repeat split; try assumption.
    intros u.
    rewrite (bernstein_sum_ext (S m) _
               (fun j => c_new (S m) (fun i => nth i c 0) j
                         + w_new (S m) (nth m _t 0) (fun i => nth i w 0) j
                           * nth (S m) f' 0))
      by (intros k Hk; apply Nc; exact Hk).
    rewrite (bernstein_sum_plus_scal (S m)
               (c_new (S m) (fun i => nth i c 0))
               (w_new (S m) (nth m _t 0) (fun i => nth i w 0))).
    rewrite <- (bernstein_sum_ext (S m) (fun i => nth i w' 0)
                  (w_new (S m) (nth m _t 0) (fun i => nth i w 0)))
      by (intros k Hk; apply Nw; exact Hk).
    rewrite Iw', bernstein_sum_elevate, Ic.
    rewrite newton_S, If' by lia.
    rewrite Nat.min_id, Nat.sub_diag. ring.
Qed.

End Stages.

(** ** Counters, copies and bounds *)

Lemma uint32_small (n : nat) : (Z.of_nat n < 2 ^ 32)%Z -> uint32 n = n.
Proof.
  intros H. unfold uint32. rewrite Z.mod_small by lia. apply Nat2Z.id.
Qed.

Lemma uint32_le (n : nat) : (uint32 n <= n)%nat.
Proof.
  unfold uint32.
  assert (H : (Z.of_nat n mod 2 ^ 32 <= Z.of_nat n)%Z) by (apply Z.mod_le; lia).
  lia.
Qed.

Lemma uint32_fixed (n : nat) : uint32 n = n -> (Z.of_nat n < 2 ^ 32)%Z.
Proof.
  unfold uint32. intros H.
  assert (B : (0 <= Z.of_nat n mod 2 ^ 32 < 2 ^ 32)%Z) by (apply Z.mod_pos_bound; lia).
  lia.
Qed.

Lemma transform_ok (op : R -> result R) (g : R -> R) (src dst : list R) :
  (forall a, In a src -> op a = Ok (g a)) ->
  (length src <= length dst)%nat ->
  transform op src dst = Ok (map g src ++ skipn (length src) dst).
Proof.
  revert dst. induction src as [| a src IH]; intros dst Hop Hlen.
  - reflexivity.
  - destruct dst as [| d dst]; [simpl in Hlen; lia |].
    cbn [transform]. rewrite (Hop a) by (left; reflexivity). cbn [bind].
    rewrite IH.
    + reflexivity.
    + intros a' Ha'. apply Hop. right. exact Ha'.
    + simpl in Hlen. lia.
Qed.

Lemma transform_length (op : R -> result R) (src dst r : list R) :
  transform op src dst = Ok r -> (length src <= length dst)%nat.
Proof.
  revert dst r. induction src as [| a src IH]; intros dst r H.
  - simpl. lia.
  - cbn [transform] in H. destruct (op a) as [b |]; [| discriminate].
    cbn [bind] in H. destruct dst as [| d dst]; [discriminate |].
    destruct (transform op src dst) as [r' |] eqn:E; [| discriminate].
    apply IH in E. simpl. lia.
Qed.

Lemma std_min_Rmin (a b : R) : std_min a b = Rmin a b.
Proof.
  unfold std_min, Rmin. destruct (Rlt_dec b a), (Rle_dec a b); lra.
Qed.

Lemma std_max_Rmax (a b : R) : std_max a b = Rmax a b.
Proof.
  unfold std_max, Rmax. destruct (Rlt_dec a b), (Rle_dec a b); lra.
Qed.

Lemma std_min_le_max (a b : R) : std_min a b <= std_max a b.
Proof.
  unfold std_min, std_max. destruct (Rlt_dec b a), (Rlt_dec a b); lra.
Qed.

Lemma std_bounds_apart (a b : R) : a <> b -> std_max a b - std_min a b <> 0.
Proof.
  unfold std_min, std_max. destruct (Rlt_dec b a), (Rlt_dec a b); lra.
Qed.

(** The last loop stores the whole of [c]. *)
Lemma set_pars_loop (c : list R) (m : nat) (p : Bernstein) :
  (m <= length c)%nat ->
  (m <= length (pars p))%nat ->
  exists q,
    for_each (seq 0 m) (fun i p' => ci <- vget c i ;; Ok (setPar i ci p')) p = Ok q
    /\ m_xmin q = m_xmin p /\ m_xmax q = m_xmax p
    /\ length (pars q) = length (pars p)
    /\ forall k, nth k (pars q) 0
                 = if (k <? m)%nat then nth k c 0 else nth k (pars p) 0.
Proof.
  induction m as [| m IH]; intros Hc Hp.
  - exists p. repeat split.
  - destruct IH as (q & Erun & Elo & Ehi & Elen & Enth); try lia.
    rewrite seq_S, for_each_app, Erun. cbn [bind for_each Nat.add].
    rewrite vget_ok by lia. cbn [bind].
    eexists. split; [reflexivity |]. cbn [setPar m_xmin m_xmax pars].
    rewrite length_upd. repeat split; auto.
    intros k. destruct (Nat.eq_dec k m) as [-> | Hne].
    + rewrite nth_upd_same by lia.
      destruct (Nat.ltb_spec m (S m)); [reflexivity | lia].
    + rewrite nth_upd_other by lia. rewrite Enth.
      destruct (Nat.ltb_spec k m), (Nat.ltb_spec k (S m)); auto; lia.
Qed.

Lemma set_pars_ok (N : nat) (c : list R) (p : Bernstein) :
  (Z.of_nat N <= 65535)%Z ->
  length c = N -> length (pars p) = N ->
  set_pars N c p = Ok (mkBernstein c (m_xmin p) (m_xmax p)).
Proof.
  intros HN Hc Hp. unfold set_pars.
  destruct (Z.ltb_spec 65535 (Z.of_nat N)); [lia |].
  destruct (set_pars_loop c N p) as (q & Erun & Elo & Ehi & Elen & Enth); try lia.
  rewrite Erun. f_equal. destruct q as [qc qlo qhi]. simpl in *.
  subst qlo qhi. f_equal.
  apply (nth_ext _ _ 0 0); [lia |].
  intros k Hk. rewrite Enth.
  destruct (Nat.ltb_spec k N); [reflexivity | lia].
Qed.

Lemma set_pars_no_division (N : nat) (c : list R) (p : Bernstein) :
  length c = N -> length (pars p) = N ->
  set_pars N c p <> Err DivisionByZero.
Proof.
  intros Hc Hp.
  destruct (Z.ltb_spec 65535 (Z.of_nat N)) as [Hbig | Hsmall].
  - unfold set_pars. destruct (Z.ltb_spec 65535 (Z.of_nat N)); [discriminate | lia].
  - rewrite set_pars_ok by assumption. discriminate.
Qed.

Lemma set_pars_result (N : nat) (c : list R) (p q : Bernstein) :
  length c = N -> length (pars p) = N ->
  set_pars N c p = Ok q ->
  (Z.of_nat N <= 65535)%Z /\ q = mkBernstein c (m_xmin p) (m_xmax p).
Proof.
  intros Hc Hp H.
  destruct (Z.ltb_spec 65535 (Z.of_nat N)) as [Hbig | Hsmall].
  - unfold set_pars in H.
    destruct (Z.ltb_spec 65535 (Z.of_nat N)); [discriminate | lia].
  - split; [exact Hsmall |].
    rewrite set_pars_ok in H by assumption. now inversion H.
Qed.

(** ** The interpolating constructor, start to end *)

Lemma bind_ok {A B : Type} (m : result A) (k : A -> result B) (b : B) :
  (v <- m ;; k v) = Ok b -> exists a, m = Ok a /\ k a = Ok b.
Proof.
  destruct m as [a | e]; cbn [bind]; intros H; [| discriminate].
  exists a. split; [reflexivity | exact H].
Qed.

Lemma for_each_invariant {S : Type} (P : S -> Prop)
  (body : nat -> S -> result S) (l : list nat) (s0 s : S) :
  (forall i a b, body i a = Ok b -> P a -> P b) ->
  P s0 -> for_each l body s0 = Ok s -> P s.
Proof.
  intros Hstep. revert s0. induction l as [| i l IH]; intros s0 H0 Hrun.
  - cbn in Hrun. inversion Hrun. subst. exact H0.
  - cbn [for_each] in Hrun. apply bind_ok in Hrun as (s1 & E1 & E2).
    apply (IH s1); [eapply Hstep; eassumption | exact E2].
Qed.

Lemma copied_samples (N : nat) (ys : list R) :
  firstn (Nat.min N (length ys)) ys
    ++ skipn (Nat.min N (length ys)) (repeat 0 N)
  = samples N ys.
Proof.
  unfold samples. set (m := Nat.min N (length ys)).
  apply (nth_ext _ _ 0 0).
  - rewrite length_app, !length_firstn, length_skipn, length_app, repeat_length.
    unfold m. lia.
  - intros k Hk.
    rewrite length_app, length_firstn, length_skipn, repeat_length in Hk.
    assert (HkN : (k < N)%nat) by (unfold m in Hk; lia).
    rewrite (nth_firstn N), (proj2 (Nat.ltb_lt k N) HkN).
    destruct (Nat.lt_ge_cases k m) as [Hlt | Hge].
    + rewrite app_nth1 by (rewrite length_firstn; unfold m in *; lia).
      rewrite nth_firstn, (proj2 (Nat.ltb_lt k m) Hlt).
      rewrite app_nth1 by (unfold m in *; lia). reflexivity.
    + rewrite app_nth2 by (rewrite length_firstn; unfold m in *; lia).
      rewrite nth_skipn, nth_repeat.
      rewrite app_nth2 by (unfold m in *; lia).
      rewrite nth_repeat. reflexivity.
Qed.

Lemma nth_samples (N : nat) (ys : list R) (i : nat) :
  (i < N)%nat -> nth i (samples N ys) 0 = nth i ys 0.
Proof.
  intros Hi. unfold samples.
  rewrite nth_firstn, (proj2 (Nat.ltb_lt i N) Hi).
  destruct (Nat.lt_ge_cases i (length ys)) as [Hlt | Hge].
  - apply app_nth1. exact Hlt.
  - rewrite app_nth2 by lia. rewrite nth_repeat.
    symmetry. apply nth_overflow. lia.
Qed.

Lemma length_samples (N : nat) (ys : list R) : length (samples N ys) = N.
Proof.
  unfold samples. rewrite length_firstn, length_app, repeat_length. lia.
Qed.

(** The values in [_f] when the loop over [s] starts. *)
Lemma std_copy_samples (N : nat) (ys : list R) :
  std_copy (firstn (Nat.min N (uint32 (length ys))) ys) (repeat 0 N)
  = Ok (samples N (firstn (uint32 (length ys)) ys)).
Proof.
  pose proof (uint32_le (length ys)) as Hle.
  set (NY := uint32 (length ys)) in *.
  assert (Hlen : length (firstn (Nat.min N NY) ys) = Nat.min N NY)
    by (rewrite length_firstn; lia).
  unfold std_copy. rewrite (transform_ok _ (fun a => a)).
  - rewrite map_id, Hlen. f_equal.
    rewrite <- copied_samples.
    rewrite length_firstn, (Nat.min_l NY (length ys)) by exact Hle.
    f_equal. rewrite firstn_firstn. f_equal. lia.
  - reflexivity.
  - rewrite Hlen, repeat_length. lia.
Qed.

Lemma t_ok (p : Bernstein) (x0 : R) :
  m_xmax p - m_xmin p <> 0 ->
  t p x0 = Ok ((x0 - m_xmin p) / (m_xmax p - m_xmin p)).
Proof.
  intros H. unfold t. apply fdiv_ok. exact H.
Qed.

Lemma t_injective (lo hi a b : R) :
  hi - lo <> 0 -> (a - lo) / (hi - lo) = (b - lo) / (hi - lo) -> a = b.
Proof.
  intros Hd E.
  assert (H : a - lo = b - lo).
  { apply (Rmult_eq_reg_r (/ (hi - lo))); [exact E |].
    apply Rinv_neq_0_compat. exact Hd. }
  lra.
Qed.

(** When the abscissas fit the destination of [std::transform], their
    count fits 32 bits. *)
Lemma uint32_transform (n : nat) :
  (n <= Nat.max (uint32 n) 1)%nat -> uint32 n = n.
Proof.
  intros H. pose proof (uint32_le n) as Hle.
  destruct (Nat.le_gt_cases n 1) as [H1 | H1].
  - apply uint32_small. lia.
  - lia.
Qed.

Section Construction.

Variables (xs ys : list R) (xmin xmax : R).

Let N := length xs.
Let lo := std_min xmin xmax.
Let hi := std_max xmin xmax.
Let self := mkBernstein (PolySum (N - 1)) lo hi.
Let _t := map (fun x0 => (x0 - lo) / (hi - lo)) xs.
Let _f := samples N (firstn (uint32 (length ys)) ys).

Hypothesis bounds_apart : xmin <> xmax.
Hypothesis not_empty : (1 <= N)%nat.
Hypothesis fits : (Z.of_nat N < 2 ^ 32)%Z.

(** The constructor up to the loop over [s]. *)
Lemma interpolant_body :
  Bernstein_interpolant xs ys xmin xmax
  = (st <- for_each (seq 1 (N - 1)) (stage N _t)
             (_f, upd (repeat 0 N) 0 1, upd (repeat 0 N) 0 (nth 0 _f 0)) ;;
     set_pars N (snd st) self).
Proof.
  unfold Bernstein_interpolant.
  replace (match xs with [] => 0%nat | _ :: _ => (length xs - 1)%nat end)
    with (N - 1)%nat by (unfold N; destruct xs; reflexivity).
  fold N lo hi self. rewrite (uint32_small N fits).
  rewrite (transform_ok _ (fun x0 => (x0 - lo) / (hi - lo))).
  - cbn [bind]. rewrite std_copy_samples. cbn [bind]. fold _f.
    rewrite skipn_all2 by (rewrite repeat_length; fold N; lia).
    rewrite app_nil_r. fold _t.
    rewrite vset_ok by (rewrite repeat_length; lia). cbn [bind].
    rewrite (vget_ok _f 0) by (unfold _f; rewrite length_samples; lia).
    cbn [bind].
    rewrite vset_ok by (rewrite repeat_length; lia). cbn [bind].
    reflexivity.
  - intros a _. apply (t_ok self). apply std_bounds_apart. exact bounds_apart.
  - rewrite repeat_length. fold N. lia.
Qed.

Hypothesis distinct : NoDup xs.

Lemma nodes_distinct (a b : nat) :
  (a < b <= N - 1)%nat -> nth a _t 0 <> nth b _t 0.
Proof.
  intros Hab E. unfold _t in E.
  rewrite (nth_indep _ 0 ((0 - lo) / (hi - lo))) in E
    by (rewrite length_map; fold N; lia).
  rewrite (nth_indep (map _ xs) 0 ((0 - lo) / (hi - lo))) in E
    by (rewrite length_map; fold N; lia).
  rewrite !(map_nth (fun x0 => (x0 - lo) / (hi - lo))) in E.
  apply t_injective in E; [| apply std_bounds_apart; exact bounds_apart].
  apply (proj1 (NoDup_nth xs 0) distinct) in E; fold N; lia.
Qed.

(** The loop over [s] ends with Newton's form in [c]. *)
Lemma interpolant_result :
  exists c,
    length c = N
    /\ (forall u, bernstein_sum (N - 1) (fun i => nth i c 0) u
                  = newton (fun k => nth k _t 0) (fun k => nth k _f 0)
                      0 (N - 1) u)
    /\ Bernstein_interpolant xs ys xmin xmax = set_pars N c self.
Proof.
  destruct (stages_run N _t _f) with (m := (N - 1)%nat)
    as (f & w & c & Erun & _ & _ & Lc & _ & _ & Ic); try lia.
  - unfold _t. rewrite length_map. reflexivity.
  - unfold _f. apply length_samples.
  - exact nodes_distinct.
  - exists c. split; [exact Lc |]. split; [exact Ic |].
    rewrite interpolant_body, Erun. reflexivity.
Qed.

(** The polynomial takes the value of [_f] at every abscissa. *)
Lemma interpolant_evaluates :
  (Z.of_nat N <= 65535)%Z ->
  exists p,
    Bernstein_interpolant xs ys xmin xmax = Ok p
    /\ m_xmin p = lo /\ m_xmax p = hi /\ length (pars p) = N
    /\ forall i, (i < N)%nat -> evaluate p (nth i xs 0) = Ok (nth i _f 0).
Proof.
  intros Hshort.
  destruct interpolant_result as (c & Lc & Ic & Erun).
  rewrite set_pars_ok in Erun; try assumption.
  2: { unfold self, PolySum. cbn [pars]. rewrite repeat_length. lia. }
  eexists. split; [exact Erun |]. cbn [m_xmin m_xmax pars self].
  repeat split; try assumption.
  intros i Hi. unfold evaluate.
  rewrite t_ok by (cbn [m_xmin m_xmax]; apply std_bounds_apart; exact bounds_apart).
  cbn [bind m_xmin m_xmax pars]. f_equal.
  rewrite (casteljau_bernstein_sum (N - 1)) by lia.
  rewrite Ic.
  assert (E : (nth i xs 0 - lo) / (hi - lo) = nth (0 + i) _t 0).
  { unfold _t. cbn [Nat.add].
    rewrite (nth_indep (map _ xs) 0 ((0 - lo) / (hi - lo)))
      by (rewrite length_map; fold N; lia).
    rewrite (map_nth (fun x0 => (x0 - lo) / (hi - lo))). reflexivity. }
  rewrite E.
  rewrite (newton_interpolates (fun k => nth k _t 0) (fun k => nth k _f 0)
             (N - 1) nodes_distinct) by lia.
  reflexivity.
Qed.

End Construction.

(** What a constructed interpolant says about the run that built it. *)
Lemma interpolant_ok_inv (xs ys : list R) (xmin xmax : R) (p : Bernstein) :
  Bernstein_interpolant xs ys xmin xmax = Ok p ->
  m_xmin p = std_min xmin xmax /\ m_xmax p = std_max xmin xmax
  /\ length (pars p) = length xs
  /\ (1 <= length xs)%nat /\ (Z.of_nat (length xs) <= 65535)%Z.
Proof.
  unfold Bernstein_interpolant. intros H.
  apply bind_ok in H as (_t & Et & H).
  apply bind_ok in H as (_f & Ef & H).
  apply bind_ok in H as (w & Ew & H).
  apply bind_ok in H as (f0 & Ef0 & H).
  apply bind_ok in H as (c & Ec & H).
  apply bind_ok in H as (st & Est & H).
  apply transform_length in Et. rewrite repeat_length in Et.
  apply uint32_transform in Et. rewrite Et in *.
  assert (HN : (1 <= length xs)%nat).
  { unfold vset in Ew. rewrite repeat_length in Ew.
    destruct (Nat.ltb_spec 0 (length xs)); [lia | discriminate]. }
  replace (match xs with [] => 0%nat | _ :: _ => (length xs - 1)%nat end)
    with (length xs - 1)%nat in H by (destruct xs; reflexivity).
  unfold set_pars in H.
  destruct (Z.ltb_spec 65535 (Z.of_nat (length xs))) as [| Hshort]; [discriminate |].
  set (self := mkBernstein (PolySum (length xs - 1)) (std_min xmin xmax)
                 (std_max xmin xmax)) in H.
  apply (for_each_invariant
           (fun q => m_xmin q = m_xmin self /\ m_xmax q = m_xmax self
                     /\ length (pars q) = length (pars self))) in H.
  - destruct H as (Hlo & Hhi & Hlen). rewrite Hlo, Hhi, Hlen.
    unfold self, PolySum. cbn [m_xmin m_xmax pars]. rewrite repeat_length.
    repeat split; try lia.
  - intros i a b Hb (Hlo & Hhi & Hlen).
    apply bind_ok in Hb as (ci & _ & Hb). inversion Hb; subst b.
    cbn [setPar m_xmin m_xmax pars]. rewrite length_upd. auto.
  - auto.
Qed.

Lemma samples_firstn_all (N : nat) (ys : list R) :
  (Z.of_nat (length ys) < 2 ^ 32)%Z ->
  samples N (firstn (uint32 (length ys)) ys) = samples N ys.
Proof.
  intros H. rewrite (uint32_small _ H), firstn_all. reflexivity.
Qed.


(** ** The call operator and the bounds *)

Lemma call_zero_outside (p : Bernstein) (x0 : R) :
  x0 < xmin p \/ xmax p < x0 -> call p x0 = Ok 0.
Proof.
  unfold call, xmin, xmax. intros [H | H].
  - destruct (Rlt_dec x0 (m_xmin p)); [reflexivity | contradiction].
  - destruct (Rlt_dec x0 (m_xmin p)); [reflexivity |].
    destruct (Rgt_dec x0 (m_xmax p)) as [| Hn]; [reflexivity |].
    elim Hn. exact H.
Qed.

(** C3.  Strictly outside the interval of the polynomial, on either side,
    the call operator returns 0: it neither extrapolates nor fails. *)
Theorem call_outside_is_zero (p : Bernstein) (x0 : R) :
  x0 < xmin p \/ xmax p < x0 -> call p x0 = Ok 0.
Proof.
  exact (call_zero_outside p x0).
Qed.

Lemma call_outside_is_zero_witness :
  call (mkBernstein [1; 2] 0 1) 2 = Ok 0.
Proof.
  apply call_outside_is_zero. right. unfold xmax. simpl. lra.
Defined.

(** C9.  At the two ends of the interval the call operator evaluates the
    polynomial: the tests that return 0 are strict, so [xmin] and [xmax]
    belong to the evaluated domain. *)
Theorem call_at_endpoints (p : Bernstein) :
  xmin p <= xmax p ->
  call p (xmin p) = evaluate p (xmin p)
  /\ call p (xmax p) = evaluate p (xmax p).
Proof.
  unfold call, xmin, xmax. intros H. split.
  - destruct (Rlt_dec (m_xmin p) (m_xmin p)); [lra |].
    destruct (Rgt_dec (m_xmin p) (m_xmax p)); [lra | reflexivity].
  - destruct (Rlt_dec (m_xmax p) (m_xmin p)); [lra |].
    destruct (Rgt_dec (m_xmax p) (m_xmax p)); [lra | reflexivity].
Qed.

Lemma call_at_endpoints_witness :
  call (mkBernstein [1; 2] 0 1) 0 = evaluate (mkBernstein [1; 2] 0 1) 0
  /\ call (mkBernstein [1; 2] 0 1) 1 = evaluate (mkBernstein [1; 2] 0 1) 1.
Proof.
  apply (call_at_endpoints (mkBernstein [1; 2] 0 1)).
  unfold xmin, xmax. simpl. lra.
Defined.

(** Every polynomial that the two constructors build has its bounds in
    order. *)
Lemma range_bounds_ordered (PolySum_range : list R -> list R)
  (first_last : list R) (a b : R) :
  xmin (Bernstein_range PolySum_range first_last a b)
  <= xmax (Bernstein_range PolySum_range first_last a b).
Proof.
  unfold xmin, xmax, Bernstein_range. cbn [m_xmin m_xmax]. apply std_min_le_max.
Qed.

Lemma interpolant_bounds_ordered (xs ys : list R) (a b : R) (p : Bernstein) :
  Bernstein_interpolant xs ys a b = Ok p -> xmin p <= xmax p.
Proof.
  intros H. apply interpolant_ok_inv in H as (Hlo & Hhi & _).
  unfold xmin, xmax. rewrite Hlo, Hhi. apply std_min_le_max.
Qed.

(** C8.  Both constructors that take the bounds of the interval store
    the smaller one as [xmin] and the larger one as [xmax], in whatever
    order they come: the constructor from a range of coefficients always,
    and the interpolating constructor for every polynomial it builds. *)
Theorem constructors_order_bounds :
  (forall (PolySum_range : list R -> list R) (first_last : list R) (a b : R),
      xmin (Bernstein_range PolySum_range first_last a b) = Rmin a b
      /\ xmax (Bernstein_range PolySum_range first_last a b) = Rmax a b)
  /\ (forall (xs ys : list R) (a b : R) (p : Bernstein),
         Bernstein_interpolant xs ys a b = Ok p ->
         xmin p = Rmin a b /\ xmax p = Rmax a b).
Proof.
  split.
  - intros PolySum_range first_last a b.
    unfold xmin, xmax, Bernstein_range. cbn [m_xmin m_xmax].
    rewrite std_min_Rmin, std_max_Rmax. split; reflexivity.
  - intros xs ys a b p H.
    apply interpolant_ok_inv in H as (Hlo & Hhi & _).
    unfold xmin, xmax. rewrite Hlo, Hhi, std_min_Rmin, std_max_Rmax.
    split; reflexivity.
Qed.

Lemma constructors_order_bounds_witness :
  exists p, Bernstein_interpolant [1] [5] 3 2 = Ok p
            /\ xmin p = Rmin 3 2 /\ xmax p = Rmax 3 2.
Proof.
  destruct (interpolant_evaluates [1] [5] 3 2) as (p & E & _).
  - lra.
  - simpl. lia.
  - simpl. lia.
  - repeat constructor. simpl. tauto.
  - simpl. lia.
  - exists p. split; [exact E |].
    exact (proj2 constructors_order_bounds [1] [5] 3 2 p E).
Defined.

(** The interpolant, evaluated at an abscissa, gives the sample there. *)
Lemma interpolant_exact (xs ys : list R) (xmin xmax : R) :
  NoDup xs -> xmin <> xmax ->
  (1 <= length xs)%nat -> (Z.of_nat (length xs) <= 65535)%Z ->
  (Z.of_nat (length ys) < 2 ^ 32)%Z ->
  exists p,
    Bernstein_interpolant xs ys xmin xmax = Ok p
    /\ m_xmin p = std_min xmin xmax /\ m_xmax p = std_max xmin xmax
    /\ forall i, (i < length xs)%nat ->
                 evaluate p (nth i xs 0) = Ok (nth i ys 0).
Proof.
  intros Hd Hb HN Hshort Hys.
  destruct (interpolant_evaluates xs ys xmin xmax Hb HN) as (p & E & Hlo & Hhi & _ & Hev);
    try assumption; try lia.
  exists p. repeat split; try assumption.
  intros i Hi. rewrite (Hev i Hi), samples_firstn_all by exact Hys.
  rewrite nth_samples by exact Hi. reflexivity.
Qed.





Lemma call_inside (p : Bernstein) (x0 : R) :
  m_xmin p <= x0 <= m_xmax p -> call p x0 = evaluate p x0.
Proof.
  unfold call. intros [Hlo Hhi].
  destruct (Rlt_dec x0 (m_xmin p)); [lra |].
  destruct (Rgt_dec x0 (m_xmax p)); [lra | reflexivity].
Qed.

(** C1, as it is stated, fails: the call operator is zero outside of
    [xmin, xmax], also at an abscissa of the interpolation.  The
    parabola through (0,0), (1,1), (2,4), built on the interval [0,1],
    is called at its abscissa 2 and answers 0, not 4. *)
Lemma interpolant_abscissa_outside :
  exists p,
    Interpolation.bernstein [0; 1; 2] [0; 1; 4] 0 1 = Ok p
    /\ call p (nth 2 [0; 1; 2] 0) = Ok 0
    /\ call p (nth 2 [0; 1; 2] 0) <> Ok (nth 2 [0; 1; 4] 0).
Proof.
  destruct (interpolant_exact [0; 1; 2] [0; 1; 4] 0 1) as (p & E & Hlo & Hhi & _).
  - repeat constructor; simpl; intros H; lra.
  - lra.
  - simpl. lia.
  - simpl. lia.
  - simpl. lia.
  - exists p. split; [exact E |].
    assert (C : call p (nth 2 [0; 1; 2] 0) = Ok 0).
    { apply call_zero_outside. right. unfold xmax. rewrite Hhi.
      unfold std_max. simpl. destruct (Rlt_dec 0 1); lra. }
    split; [exact C |]. rewrite C. simpl. intros F. inversion F. lra.
Qed.

(** C1, amended.  For N pairwise distinct abscissas, N from 1 to 65535,
    an interval with distinct bounds and N values y_i, the interpolating
    constructor and the wrapper [Interpolation::bernstein] build a
    polynomial p with evaluate(x_i) = y_i at every abscissa, and with
    p(x_i) = y_i at every abscissa that lies in [xmin, xmax]. *)
Theorem interpolation_exact_inside (xs ys : list R) (xmin xmax : R) :
  NoDup xs -> xmin <> xmax ->
  (1 <= length xs)%nat -> (Z.of_nat (length xs) <= 65535)%Z ->
  length ys = length xs ->
  exists p,
    Bernstein_interpolant xs ys xmin xmax = Ok p
    /\ Interpolation.bernstein xs ys xmin xmax = Ok p
    /\ forall i, (i < length xs)%nat ->
         evaluate p (nth i xs 0) = Ok (nth i ys 0)
         /\ (Rmin xmin xmax <= nth i xs 0 <= Rmax xmin xmax ->
             call p (nth i xs 0) = Ok (nth i ys 0)).
Proof.
  intros Hd Hb HN Hshort Hys.
  destruct (interpolant_exact xs ys xmin xmax Hd Hb HN Hshort) as (p & E & Hlo & Hhi & Hev);
    [rewrite Hys; lia |].
  exists p. split; [exact E |]. split; [exact E |].
  intros i Hi. split; [exact (Hev i Hi) |].
  intros Hin. rewrite call_inside; [exact (Hev i Hi) |].
  rewrite Hlo, Hhi, std_min_Rmin, std_max_Rmax. exact Hin.
Qed.

Lemma interpolation_exact_inside_witness :
  exists p,
    Bernstein_interpolant [0; 1; 2] [0; 1; 4] 0 2 = Ok p
    /\ call p 0 = Ok 0 /\ call p 1 = Ok 1 /\ call p 2 = Ok 4.
Proof.
  destruct (interpolation_exact_inside [0; 1; 2] [0; 1; 4] 0 2) as (p & E & _ & H).
  - repeat constructor; simpl; intros H; lra.
  - lra.
  - simpl. lia.
  - simpl. lia.
  - reflexivity.
  - assert (Hmin : Rmin 0 2 = 0) by (unfold Rmin; destruct (Rle_dec 0 2); lra).
    assert (Hmax : Rmax 0 2 = 2) by (unfold Rmax; destruct (Rle_dec 0 2); lra).
    exists p. split; [exact E |]. rewrite Hmin, Hmax in H. repeat split.
    + apply (proj2 (H 0%nat ltac:(simpl; lia))). simpl. lra.
    + apply (proj2 (H 1%nat ltac:(simpl; lia))). simpl. lra.
    + apply (proj2 (H 2%nat ltac:(simpl; lia))). simpl. lra.
Defined.

(** ** The grid of lobatto *)

Lemma lobatto_interior_loop (xi : nat -> R) (m : nat) (v : list R) :
  (m < length v)%nat ->
  exists g,
    for_each (seq 1 m) (fun i v' => vset v' i (xi i)) v = Ok g
    /\ length g = length v
    /\ forall k, nth k g 0
                 = if ((1 <=? k) && (k <=? m))%nat then xi k else nth k v 0.
Proof.
  induction m as [| m IH]; intros Hm.
  - exists v. repeat split. intros k.
    destruct (Nat.leb_spec 1 k), (Nat.leb_spec k 0); cbn [andb]; auto; lia.
  - destruct IH as (g & Erun & Elen & Enth); [lia |].
    rewrite seq_S, for_each_app, Erun. cbn [bind for_each Nat.add].
    rewrite vset_ok by lia. cbn [bind].
    eexists. split; [reflexivity |]. rewrite length_upd. split; [exact Elen |].
    intros k. destruct (Nat.eq_dec k (S m)) as [-> | Hne].
    + rewrite nth_upd_same by lia.
      destruct (Nat.leb_spec 1 (S m)), (Nat.leb_spec (S m) (S m)); cbn [andb];
        auto; lia.
    + rewrite nth_upd_other by lia. rewrite Enth.
      destruct (Nat.leb_spec 1 k), (Nat.leb_spec k m), (Nat.leb_spec k (S m));
        cbn [andb]; auto; lia.
Qed.

(** The grid that the code builds for a degree of 2 or more: the bounds
    at both ends, the cosine points up to the index N-2, and at the index
    N-1 the zero that the vector was created with. *)
Lemma lobatto_grid_shape (N : nat) (xmin xmax : R) :
  (2 <= N)%nat ->
  exists g,
    Interpolation.lobatto_grid N xmin xmax = Ok g
    /\ length g = S N
    /\ nth 0 g 0 = Rmin xmin xmax
    /\ nth N g 0 = Rmax xmin xmax
    /\ (forall k, (1 <= k <= N - 2)%nat ->
          nth k g 0
          = 0.5 * (Rmin xmin xmax + Rmax xmin xmax)
            - cos (PI / INR (N - 1) * INR k)
              * (0.5 * (Rmax xmin xmax - Rmin xmin xmax)))
    /\ nth (N - 1) g 0 = 0.
Proof.
  intros HN. unfold Interpolation.lobatto_grid.
  rewrite std_min_Rmin, std_max_Rmax.
  set (x_min := Rmin xmin xmax). set (x_max := Rmax xmin xmax).
  replace (N + 1)%nat with (S N) by lia.
  rewrite vset_ok by (rewrite repeat_length; lia). cbn [bind].
  rewrite length_upd, repeat_length.
  replace (S N - 1)%nat with N by lia.
  rewrite vset_ok by (rewrite length_upd, repeat_length; lia). cbn [bind].
  match goal with
  | |- context [for_each _ ?body ?v] =>
      destruct (lobatto_interior_loop
                  (fun k => 0.5 * (x_min + x_max)
                            - cos (PI / INR (N - 1) * INR k)
                              * (0.5 * (x_max - x_min)))
                  (N - 2) v) as (g & Erun & Elen & Enth)
  end.
  { rewrite !length_upd, repeat_length. lia. }
  exists g. split; [exact Erun |].
  rewrite !length_upd, repeat_length in Elen.
  split; [exact Elen |].
  assert (Hrest : forall k, nth k (upd (upd (repeat 0 (S N)) 0 x_min) N x_max) 0
                            = if (k =? N)%nat then x_max
                              else if (k =? 0)%nat then x_min else 0).
  { intros k. destruct (Nat.eqb_spec k N) as [-> | HkN].
    - apply nth_upd_same. rewrite length_upd, repeat_length. lia.
    - rewrite nth_upd_other by lia.
      destruct (Nat.eqb_spec k 0) as [-> | Hk0].
      + apply nth_upd_same. rewrite repeat_length. lia.
      + rewrite nth_upd_other by lia. apply nth_repeat. }
  repeat split.
  - rewrite Enth, Hrest. cbn [Nat.leb andb].
    destruct (Nat.eqb_spec 0 N); [lia | reflexivity].
  - rewrite Enth, Hrest.
    destruct (Nat.leb_spec 1 N), (Nat.leb_spec N (N - 2)); cbn [andb]; try lia.
    rewrite Nat.eqb_refl. reflexivity.
  - intros k Hk. rewrite Enth.
    destruct (Nat.leb_spec 1 k), (Nat.leb_spec k (N - 2)); cbn [andb]; try lia.
    reflexivity.
  - rewrite Enth, Hrest.
    destruct (Nat.leb_spec 1 (N - 1)), (Nat.leb_spec (N - 1) (N - 2));
      cbn [andb]; try lia.
    destruct (Nat.eqb_spec (N - 1) N), (Nat.eqb_spec (N - 1) 0); try lia.
    reflexivity.
Qed.

(** The degree 0 of [lobatto]: the constant through the sample at the
    middle of the interval. *)
Lemma lobatto_constant (func : R -> R) (xmin xmax : R) :
  xmin <> xmax ->
  exists p,
    Interpolation.lobatto func 0 xmin xmax = Ok p
    /\ pars p = [func (0.5 * (xmin + xmax))].
Proof.
  intros Hb. unfold Interpolation.lobatto. cbn [Nat.eqb].
  set (x0 := 0.5 * (xmin + xmax)).
  destruct (interpolant_evaluates [x0] [func x0] xmin xmax Hb)
    as (p & E & Hlo & Hhi & Hlen & Hev).
  - simpl. lia.
  - simpl. lia.
  - repeat constructor. simpl. tauto.
  - simpl. lia.
  - exists p. split; [exact E |].
    specialize (Hev 0%nat ltac:(simpl; lia)).
    rewrite samples_firstn_all, nth_samples in Hev by (simpl; lia).
    destruct (pars p) as [| c0 [| c1 rest]] eqn:Ep; simpl in Hlen; try lia.
    unfold evaluate in Hev. rewrite t_ok in Hev.
    + cbn [bind] in Hev. rewrite Ep in Hev. unfold casteljau in Hev.
      cbn in Hev. inversion Hev. reflexivity.
    + rewrite Hlo, Hhi. apply std_bounds_apart. exact Hb.
Qed.

(** In the described grid the last interior point is the upper bound. *)
Lemma lobatto_described_last_interior (N : nat) (xmin xmax : R) :
  (2 <= N)%nat ->
  nth (N - 1) (lobatto_grid_described N xmin xmax) 0 = Rmax xmin xmax.
Proof.
  intros HN. unfold lobatto_grid_described.
  set (F := fun k : nat => _).
  rewrite app_nth2 by (simpl; lia). cbn [length].
  rewrite app_nth1 by (rewrite length_map, length_seq; lia).
  rewrite (nth_indep _ 0 (F O)) by (rewrite length_map, length_seq; lia).
  rewrite (map_nth F), seq_nth by lia.
  replace (1 + (N - 1 - 1))%nat with (N - 1)%nat by lia.
  unfold F.
  assert (Hn : INR (N - 1) <> 0) by (apply not_0_INR; lia).
  replace (PI * INR (N - 1) / INR (N - 1)) with PI by (field; exact Hn).
  rewrite cos_PI. lra.
Qed.

(** C2.  The grid of [lobatto] is not the described one.  For the degree
    N = 2 on the interval [1,3] the described grid is 1, 3, 3 (the
    interior point of index 1 is xhs - cos(pi)*xhd = 3); the code leaves
    the loop over the interior points before the index N-1 and its grid
    is 1, 0, 3, with the zero that the vector was created with. *)
Theorem lobatto_grid_leaves_a_zero :
  Interpolation.lobatto_grid 2 1 3 = Ok [1; 0; 3]
  /\ lobatto_grid_described 2 1 3 = [1; 3; 3].
Proof.
  assert (Hmin : std_min 1 3 = 1) by (unfold std_min; destruct (Rlt_dec 3 1); lra).
  assert (Hmax : std_max 1 3 = 3) by (unfold std_max; destruct (Rlt_dec 1 3); lra).
  split.
  - unfold Interpolation.lobatto_grid. rewrite Hmin, Hmax. reflexivity.
  - unfold lobatto_grid_described.
    rewrite <- std_min_Rmin, <- std_max_Rmax, Hmin, Hmax.
    cbn [seq map app Nat.sub INR].
    replace (PI * 1 / 1) with PI by field.
    rewrite cos_PI. repeat f_equal. lra.
Qed.

(** ** Where a division by zero is reached *)

Lemma fdiv_by_zero (a b : R) : b = 0 -> fdiv a b = Err DivisionByZero.
Proof. intros ->. apply fdiv_zero. Qed.

Ltac read_vector :=
  rewrite vget_ok
    by (rewrite ?length_upd, ?length_samples, ?length_map, ?repeat_length;
        simpl; lia);
  cbn [bind].

(** Equal bounds: the map [t] divides by xmax - xmin = 0. *)
Example equal_bounds_divide_by_zero :
  Bernstein_interpolant [1] [5] 2 2 = Err DivisionByZero.
Proof.
  unfold Bernstein_interpolant. cbn [length transform]. unfold t at 1.
  cbn [m_xmin m_xmax].
  rewrite fdiv_by_zero; [reflexivity |].
  unfold std_min, std_max. destruct (Rlt_dec 2 2); lra.
Qed.

(** Two equal abscissas: the first divided difference divides by
    t_1 - t_0 = 0. *)
Example equal_abscissas_divide_by_zero :
  Bernstein_interpolant [1; 1] [3; 4] 0 2 = Err DivisionByZero.
Proof.
  rewrite interpolant_body; [| lra | simpl; lia | simpl; lia].
  cbn [length Nat.sub seq for_each map].
  unfold stage at 1. cbn [down_to Nat.sub seq rev app for_each].
  unfold divided_difference at 1.
  do 4 read_vector.
  rewrite fdiv_by_zero; [reflexivity | simpl; ring].
Qed.

(** [lobatto] with N = 3 on [-1,1]: the grid is -1, 0, 0, 1, where the
    first 0 is the cosine point and the second one the entry that the
    loop does not reach, and the interpolation divides by zero. *)
Example lobatto_divides_by_zero (func : R -> R) :
  Interpolation.lobatto_grid 3 (-1) 1 = Ok [-1; 0; 0; 1]
  /\ Interpolation.lobatto func 3 (-1) 1 = Err DivisionByZero.
Proof.
  assert (Hmin : std_min (-1) 1 = -1)
    by (unfold std_min; destruct (Rlt_dec 1 (-1)); lra).
  assert (Hmax : std_max (-1) 1 = 1)
    by (unfold std_max; destruct (Rlt_dec (-1) 1); lra).
  assert (G : Interpolation.lobatto_grid 3 (-1) 1 = Ok [-1; 0; 0; 1]).
  { unfold Interpolation.lobatto_grid. rewrite Hmin, Hmax.
    cbn [repeat Nat.add Nat.sub seq for_each INR].
    rewrite vset_ok by (simpl; lia). cbn [bind upd length Nat.sub].
    rewrite vset_ok by (simpl; lia). cbn [bind upd].
    rewrite vset_ok by (simpl; lia). cbn [bind upd].
    replace (PI / (1 + 1) * 1) with (PI / 2) by field.
    rewrite cos_PI2. repeat f_equal; lra. }
  split; [exact G |].
  unfold Interpolation.lobatto. cbn [Nat.eqb]. rewrite G. cbn [bind].
  unfold Interpolation.bernstein_func. cbn [length].
  rewrite (uint32_small 4) by (simpl; lia).
  rewrite (transform_ok _ func) by (auto; simpl; lia).
  cbn [bind map length skipn repeat app].
  rewrite interpolant_body; [| lra | simpl; lia | simpl; lia].
  cbn [length Nat.sub seq for_each map].
  unfold stage at 1. cbn [down_to Nat.sub seq rev app for_each].
  unfold divided_difference at 1.
  do 4 read_vector.
  rewrite fdiv_ok.
  2: { simpl. rewrite Hmin, Hmax. lra. }
  cbn [bind]. rewrite vset_ok by (rewrite length_samples; lia). cbn [bind].
  unfold divided_difference at 1.
  do 4 read_vector.
  rewrite fdiv_by_zero; [reflexivity | simpl; ring].
Qed.

(** ** The ends of the range of N *)

(** No abscissa at all: the store [w[0] = 1.0] is past the end of the
    empty vector [w]. *)
Example no_abscissa_is_out_of_range (ys : list R) (xmin xmax : R) :
  Bernstein_interpolant [] ys xmin xmax = Err OutOfRange.
Proof.
  unfold Bernstein_interpolant. cbn [length transform bind].
  rewrite (uint32_small 0) by (simpl; lia).
  rewrite std_copy_samples. reflexivity.
Qed.

(** More than 65535 abscissas: the loops over [s] end, the last loop
    does not. *)
Lemma many_abscissas_diverge (xs ys : list R) (xmin xmax : R) :
  NoDup xs -> xmin <> xmax ->
  (65535 < Z.of_nat (length xs) < 2 ^ 32)%Z ->
  Bernstein_interpolant xs ys xmin xmax = Err Diverges.
Proof.
  intros Hd Hb HN.
  destruct (interpolant_result xs ys xmin xmax Hb) as (c & _ & _ & E);
    try assumption; try lia.
  rewrite E. unfold set_pars.
  destruct (Z.ltb_spec 65535 (Z.of_nat (length xs))); [reflexivity | lia].
Qed.

(** ** Norms *)

Lemma sum_squares_pos (c : list R) : 0 <= fold_right (fun a s => a * a + s) 0 c.
Proof.
  induction c as [| a c IH]; simpl; [lra | nra].
Qed.

Lemma norm_max_le_euclid (c : list R) : norm_max c <= norm_euclid c.
Proof.
  unfold norm_max, norm_euclid.
  induction c as [| a c IH]; simpl.
  - rewrite sqrt_0. lra.
  - pose proof (sum_squares_pos c) as Hpos.
    apply Rmax_lub.
    + rewrite <- (sqrt_Rsqr_abs a). unfold Rsqr.
      apply sqrt_le_1; nra.
    + eapply Rle_trans; [exact IH |].
      apply sqrt_le_1; nra.
Qed.

Lemma norm_sum_bounds (c : list R) :
  0 <= norm_sum c
  /\ fold_right (fun a s => a * a + s) 0 c <= norm_sum c * norm_sum c.
Proof.
  unfold norm_sum. induction c as [| a c [IH0 IH]]; simpl.
  - lra.
  - pose proof (Rabs_pos a) as Ha.
    assert (Hsq : a * a = Rabs a * Rabs a).
    { unfold Rabs. destruct (Rcase_abs a); ring. }
    split; [lra |]. rewrite Hsq. nra.
Qed.

Lemma norm_euclid_le_sum (c : list R) : norm_euclid c <= norm_sum c.
Proof.
  destruct (norm_sum_bounds c) as [H0 H].
  unfold norm_euclid.
  apply Rle_trans with (sqrt (norm_sum c * norm_sum c)).
  - apply sqrt_le_1; [apply sum_squares_pos | nra | exact H].
  - rewrite sqrt_square by exact H0. lra.
Qed.

(** C7.  The norms of the coefficients are ordered: the largest absolute
    value, [norm(0)], is at most the Euclidean norm, [norm(0.5)], which
    is at most the sum of the absolute values, [norm(1)].  It holds for
    every polynomial, the zero polynomial included. *)
Theorem norm_ordering (p : Bernstein) :
  norm p 0 <= norm p 0.5 /\ norm p 0.5 <= norm p 1.
Proof.
  unfold norm.
  destruct (Req_dec_T 0 0) as [_ | F]; [| now elim F].
  destruct (Req_dec_T 0.5 0) as [F | _]; [lra |].
  destruct (Req_dec_T 0.5 0.5) as [_ | F]; [| now elim F].
  destruct (Req_dec_T 1 0) as [F | _]; [lra |].
  destruct (Req_dec_T 1 0.5) as [F | _]; [lra |].
  destruct (Req_dec_T 1 1) as [_ | F]; [| now elim F].
  split; [apply norm_max_le_euclid | apply norm_euclid_le_sum].
Qed.

(** ** Division *)

(** C5.  When the divisor is the zero polynomial, or its degree is above
    the degree of the dividend, [divmod] returns the zero polynomial as
    the quotient and the dividend as the remainder, and so do [quotient]
    and [reminder]; the result is a plain pair of polynomials, no fault. *)
Theorem divmod_degenerate
  (long_division : Bernstein -> Bernstein -> Bernstein * Bernstein)
  (f g : Bernstein) :
  zero g = true \/ (degree f < degree g)%nat ->
  divmod long_division f g = (mkBernstein [0] (m_xmin f) (m_xmax f), f)
  /\ zero (quotient long_division f g) = true
  /\ reminder long_division f g = f.
Proof.
  intros H.
  assert (E : divmod long_division f g
              = (mkBernstein [0] (m_xmin f) (m_xmax f), f)).
  { unfold divmod.
    destruct H as [H | H].
    - rewrite H. reflexivity.
    - apply Nat.ltb_lt in H. rewrite H, orb_true_r. reflexivity. }
  unfold quotient, reminder. rewrite E. cbn [fst snd].
  repeat split.
  unfold zero. cbn [pars forallb].
  destruct (Req_dec_T 0 0) as [_ | F]; [reflexivity | now elim F].
Qed.

Lemma divmod_degenerate_witness :
  divmod (fun f g => (g, f)) (mkBernstein [1; 2] 0 1) (mkBernstein [1; 2; 3] 0 1)
  = (mkBernstein [0] 0 1, mkBernstein [1; 2] 0 1).
Proof.
  apply (divmod_degenerate (fun f g => (g, f))
           (mkBernstein [1; 2] 0 1) (mkBernstein [1; 2; 3] 0 1)).
  right. unfold degree. simpl. lia.
Defined.

(** ** A run: the parabola through (0,0), (1,1) and (2,4) on [0,2] *)

Ltac run_vector :=
  repeat first
    [ rewrite vget_ok
        by (rewrite ?length_upd, ?length_samples, ?length_map, ?repeat_length;
            simpl; lia)
    | rewrite vset_ok
        by (rewrite ?length_upd, ?length_samples, ?length_map, ?repeat_length;
            simpl; lia)
    | rewrite fdiv_ok by (cbn [nth upd repeat INR Nat.sub]; lra) ];
  cbn [bind].

(** The constructor, run step by step: the coefficients are those of
    4 t^2 in the basis of degree 2. *)
Example parabola_coefficients :
  Bernstein_interpolant [0; 1; 2] [0; 1; 4] 0 2 = Ok (mkBernstein [0; 0; 4] 0 2).
Proof.
  assert (Hmin : std_min 0 2 = 0) by (unfold std_min; destruct (Rlt_dec 2 0); lra).
  assert (Hmax : std_max 0 2 = 2) by (unfold std_max; destruct (Rlt_dec 0 2); lra).
  rewrite interpolant_body; [| lra | simpl; lia | simpl; lia].
  rewrite samples_firstn_all by (simpl; lia).
  rewrite Hmin, Hmax.
  cbn [length Nat.sub seq for_each map samples app repeat firstn nth upd].
  unfold stage, divided_difference, blend.
  cbn [down_to Nat.sub seq rev app for_each].
  repeat (run_vector; cbn [nth upd bind length Nat.sub INR]).
  cbn [snd]. rewrite set_pars_ok by (simpl; lia).
  cbn [m_xmin m_xmax]. do 2 f_equal.
  f_equal; [field | f_equal; [field | f_equal; field]].
Qed.

(** The parabola at 1.5 is 2.25. *)
Example parabola_value :
  evaluate (mkBernstein [0; 0; 4] 0 2) 1.5 = Ok 2.25
  /\ call (mkBernstein [0; 0; 4] 0 2) 1.5 = Ok 2.25.
Proof.
  assert (E : evaluate (mkBernstein [0; 0; 4] 0 2) 1.5 = Ok 2.25).
  { unfold evaluate. rewrite t_ok by (simpl; lra).
    cbn [bind m_xmin m_xmax pars]. f_equal.
    unfold casteljau. simpl. lra. }
  split; [exact E |].
  rewrite call_inside; [exact E | simpl; lra].
Qed.

(** * More of the header *)

(** ** Between the interval and the unit interval *)

(** [t] after [x] and [x] after [t] are the identity, and the two ends of
    the interval are the two ends of the unit interval. *)
Theorem t_x_round_trip (p : Bernstein) (x0 t0 : R) :
  m_xmin p <> m_xmax p ->
  t p (x p t0) = Ok t0
  /\ (exists u, t p x0 = Ok u /\ x p u = x0)
  /\ t p (m_xmin p) = Ok 0 /\ t p (m_xmax p) = Ok 1
  /\ x p 0 = m_xmin p /\ x p 1 = m_xmax p.
Proof.
  intros Hb.
  assert (Hd : m_xmax p - m_xmin p <> 0) by lra.
  unfold x. rewrite !t_ok by exact Hd.
  repeat split.
  - f_equal. field. exact Hd.
  - eexists. split; [reflexivity |]. field. exact Hd.
  - f_equal. field. exact Hd.
  - f_equal. field. exact Hd.
  - ring.
  - ring.
Qed.

Lemma t_x_round_trip_witness :
  t (mkBernstein [1; 2] 2 6) (x (mkBernstein [1; 2] 2 6) 0.25) = Ok 0.25.
Proof.
  apply (t_x_round_trip (mkBernstein [1; 2] 2 6) 0 0.25).
  simpl. lra.
Defined.

(** [t] divides by zero when the two bounds are equal, and only then. *)
Theorem t_divides_by_zero_iff (p : Bernstein) (x0 : R) :
  t p x0 = Err DivisionByZero <-> m_xmin p = m_xmax p.
Proof.
  unfold t, fdiv.
  destruct (Req_dec_T (m_xmax p - m_xmin p) 0) as [E | E]; split; intros H;
    try reflexivity; try discriminate; lra.
Qed.

(** ** The order of the two bounds *)

Lemma std_min_comm (a b : R) : std_min a b = std_min b a.
Proof.
  unfold std_min. destruct (Rlt_dec b a), (Rlt_dec a b); lra.
Qed.

Lemma std_max_comm (a b : R) : std_max a b = std_max b a.
Proof.
  unfold std_max. destruct (Rlt_dec b a), (Rlt_dec a b); lra.
Qed.

(** Both constructors make the same of the bounds (a, b) and of the
    bounds (b, a): the same polynomial, or the same fault. *)
Theorem constructors_ignore_order_of_bounds
  (PolySum_range : list R -> list R) (first_last xs ys : list R) (a b : R) :
  Bernstein_range PolySum_range first_last a b
  = Bernstein_range PolySum_range first_last b a
  /\ Bernstein_interpolant xs ys a b = Bernstein_interpolant xs ys b a.
Proof.
  unfold Bernstein_range, Bernstein_interpolant.
  rewrite (std_min_comm b a), (std_max_comm b a). split; reflexivity.
Qed.

(** ** When the interpolating constructor divides by zero *)

(** A zero divisor among those of a stage stops the loop of the divided
    differences. *)
Lemma divided_difference_loop_fails (_t : list R) (s : nat) :
  (1 <= s)%nat ->
  forall (m : nat) (f : list R),
    (s + m <= length f)%nat ->
    (length f <= length _t)%nat ->
    (exists k, (s <= k < s + m)%nat /\ nth k _t 0 = nth (k - s) _t 0) ->
    for_each (rev (seq s m)) (divided_difference _t s) f = Err DivisionByZero.
Proof.
  intros Hs. induction m as [| m IH]; intros f Hf Ht (k & Hk & Ek); [lia |].
  rewrite down_to_S. cbn [for_each]. unfold divided_difference at 1.
  rewrite (vget_ok f (s + m)) by lia. cbn [bind].
  rewrite (vget_ok f (s + m - 1)) by lia. cbn [bind].
  rewrite (vget_ok _t (s + m)) by lia. cbn [bind].
  rewrite (vget_ok _t (s + m - s)) by lia. cbn [bind].
  destruct (Req_dec_T (nth (s + m) _t 0 - nth (s + m - s) _t 0) 0) as [E | E].
  - rewrite fdiv_by_zero by exact E. reflexivity.
  - rewrite fdiv_ok by exact E. cbn [bind].
    rewrite vset_ok by lia. cbn [bind].
    apply IH.
    + rewrite length_upd. lia.
    + rewrite length_upd. lia.
    + exists k. split; [| exact Ek].
      destruct (Nat.eq_dec k (s + m)) as [-> | Hne]; [| lia].
      elim E. rewrite Ek. ring.
Qed.

Lemma stage_fails (N : nat) (_t : list R) (s : nat) (f w c : list R) :
  (1 <= s < N)%nat -> length _t = N -> length f = N ->
  (exists k, (s <= k < N)%nat /\ nth k _t 0 = nth (k - s) _t 0) ->
  stage N _t s (f, w, c) = Err DivisionByZero.
Proof.
  intros Hs Ht Hf (k & Hk & Ek). unfold stage, down_to.
  replace (S (N - 1) - s)%nat with (N - s)%nat by lia.
  rewrite (divided_difference_loop_fails _t s); try lia; [reflexivity |].
  exists k. split; [lia | exact Ek].
Qed.

(** The loop over [s] either meets a zero divisor, or it ends and no two
    nodes are equal. *)
Lemma stages_outcome (N : nat) (_t f0 w0 c0 : list R) (m : nat) :
  length _t = N -> length f0 = N -> length w0 = N -> length c0 = N ->
  (m < N)%nat ->
  for_each (seq 1 m) (stage N _t) (f0, w0, c0) = Err DivisionByZero
  \/ (exists st, for_each (seq 1 m) (stage N _t) (f0, w0, c0) = Ok st
                 /\ length (fst (fst st)) = N /\ length (snd (fst st)) = N
                 /\ length (snd st) = N
                 /\ forall s k, (1 <= s <= m)%nat -> (s <= k < N)%nat ->
                                nth k _t 0 <> nth (k - s) _t 0).
Proof.
  intros Ht Hf Hw Hc. induction m as [| m IH]; intros Hm.
  - right. exists (f0, w0, c0). cbn. repeat split; auto. intros s k Hs. lia.
  - rewrite seq_S, for_each_app. change (1 + m)%nat with (S m).
    destruct IH as [E | ([[f w] c] & E & Lf & Lw & Lc & Hd)]; [lia | |].
    + left. rewrite E. reflexivity.
    + rewrite E. cbn [bind for_each]. cbn [fst snd] in Lf, Lw, Lc.
      destruct (classic (exists k, (S m <= k < N)%nat
                                   /\ nth k _t 0 = nth (k - S m) _t 0))
        as [Hex | Hno].
      * left. rewrite (stage_fails N _t (S m) f w c); auto. lia.
      * destruct (stage_run N _t (S m) f w c)
          as (f' & w' & c' & Es & Lf' & Lw' & Lc' & _); auto; try lia.
        { intros k Hk Ek. apply Hno. exists k. split; [exact Hk | exact Ek]. }
        right. exists (f', w', c'). rewrite Es. cbn [bind fst snd].
        repeat split; auto.
        intros s k Hs Hk. destruct (Nat.eq_dec s (S m)) as [-> | Hne].
        -- intros Ek. apply Hno. exists k. split; [exact Hk | exact Ek].
        -- apply Hd; lia.
Qed.

Lemma equal_nodes_divide_by_zero (xs ys : list R) (xmin xmax : R) :
  (1 <= length xs)%nat -> (Z.of_nat (length xs) < 2 ^ 32)%Z ->
  xmin = xmax \/ ~ NoDup xs ->
  Bernstein_interpolant xs ys xmin xmax = Err DivisionByZero.
Proof.
  intros HN Hfit H.
  destruct (Req_dec_T xmin xmax) as [Eb | Hb].
  - subst xmax. destruct xs as [| a xs']; [simpl in HN; lia |].
    unfold Bernstein_interpolant. cbn [transform]. unfold t at 1.
    cbn [m_xmin m_xmax]. rewrite fdiv_by_zero; [reflexivity |].
    unfold std_min, std_max. destruct (Rlt_dec xmin xmin); lra.
  - destruct H as [H | Hdup]; [contradiction |].
    rewrite interpolant_body by assumption.
    match goal with
    | |- context [for_each _ (stage ?N ?tl) (?f0, ?w0, ?c0)] =>
        destruct (stages_outcome N tl f0 w0 c0 (N - 1))
          as [E | (st & E & _ & _ & _ & Hd)]
    end; try (rewrite ?length_upd, ?repeat_length, ?length_map,
                ?length_samples; lia).
    + rewrite E. reflexivity.
    + elim Hdup. apply (NoDup_nth xs 0).
      assert (Hlt : forall i j, (i < j < length xs)%nat ->
                                nth i xs 0 <> nth j xs 0).
      { intros i j Hij Ex.
        apply (Hd (j - i)%nat j); try lia.
        replace (j - (j - i))%nat with i by lia.
        set (g := fun x0 : R => _).
        rewrite (nth_indep (map g xs) 0 (g 0)) by (rewrite length_map; lia).
        rewrite (nth_indep (map g xs) 0 (g 0)) by (rewrite length_map; lia).
        rewrite !(map_nth g). rewrite Ex. reflexivity. }
      intros i j Hi Hj Ex.
      destruct (Nat.lt_trichotomy i j) as [Hlt' | [Heq | Hgt]]; [| exact Heq |].
      * elim (Hlt i j); [lia | exact Ex].
      * elim (Hlt j i); [lia | symmetry; exact Ex].
Qed.

(** With at least one abscissa, equal bounds or two equal abscissas
    always end in a division by zero. *)
Theorem interpolant_divides_by_zero (xs ys : list R) (xmin xmax : R) :
  (1 <= length xs)%nat -> (Z.of_nat (length xs) < 2 ^ 32)%Z ->
  xmin = xmax \/ ~ NoDup xs ->
  Bernstein_interpolant xs ys xmin xmax = Err DivisionByZero.
Proof.
  exact (equal_nodes_divide_by_zero xs ys xmin xmax).
Qed.

Lemma interpolant_divides_by_zero_witness :
  Bernstein_interpolant [1; 2; 1] [3; 4; 5] 0 2 = Err DivisionByZero.
Proof.
  apply interpolant_divides_by_zero.
  - simpl. lia.
  - simpl. lia.
  - right. intros H. inversion H as [| a l Hin Hnd]. apply Hin. simpl. tauto.
Defined.

(** ** The divisions, with [t] in double precision *)

(** What follows [std::transform] is the same code in both
    constructors of the model. *)
Lemma interpolant_from_tail (xs ys : list R) (xmin xmax : R) :
  Bernstein_interpolant xs ys xmin xmax
  = (let self :=
       mkBernstein (PolySum (match xs with [] => 0 | _ => length xs - 1 end))
                   (std_min xmin xmax) (std_max xmin xmax) in
     _t <- transform (t self) xs (repeat 0 (Nat.max (uint32 (length xs)) 1)) ;;
     interpolant_from (uint32 (length xs)) (uint32 (length ys)) ys _t self).
Proof. reflexivity. Qed.

Lemma transform_double_ok (op : double -> result double) (g : double -> double)
  (src : list double) (dst : list R) :
  (forall a, In a src -> op a = Ok (g a)) ->
  (length src <= length dst)%nat ->
  transform_double op src dst
  = Ok (map (fun a => double_value (g a)) src ++ skipn (length src) dst).
Proof.
  revert dst. induction src as [| a src IH]; intros dst Hop Hlen.
  - reflexivity.
  - destruct dst as [| d dst]; [simpl in Hlen; lia |].
    cbn [transform_double]. rewrite (Hop a) by (left; reflexivity). cbn [bind].
    rewrite IH.
    + reflexivity.
    + intros a' Ha'. apply Hop. right. exact Ha'.
    + simpl in Hlen. lia.
Qed.

Lemma transform_double_short (op : double -> result double) (g : double -> double)
  (src : list double) (dst : list R) :
  (forall a, In a src -> op a = Ok (g a)) ->
  (length dst < length src)%nat ->
  transform_double op src dst = Err OutOfRange.
Proof.
  revert dst. induction src as [| a src IH]; intros dst Hop Hlen.
  - simpl in Hlen. lia.
  - cbn [transform_double]. rewrite (Hop a) by (left; reflexivity). cbn [bind].
    destruct dst as [| d dst]; [reflexivity |].
    rewrite IH; [reflexivity | |].
    + intros a' Ha'. apply Hop. right. exact Ha'.
    + simpl in Hlen. lia.
Qed.

Lemma t_double_ok (lo hi v : double) :
  PrimFloat.eqb (PrimFloat.sub hi lo) PrimFloat.zero = false ->
  t_double lo hi v = Ok (double_t lo hi v).
Proof.
  intros H. unfold t_double. rewrite H. reflexivity.
Qed.

(** From the vector [_t] on: when no two entries of [_t] are equal, the
    loops run to their end, and the last one ends when its 16-bit
    counter can reach [N]. *)
Lemma interpolant_from_run (N : nat) (ys _t : list R) (self : Bernstein) :
  (1 <= N)%nat -> length _t = N -> length (pars self) = N ->
  NoDup _t ->
  exists c,
    length c = N
    /\ interpolant_from N (uint32 (length ys)) ys _t self = set_pars N c self.
Proof.
  intros HN Ht Hp Hd. unfold interpolant_from.
  rewrite std_copy_samples. cbn [bind].
  set (_f := samples N (firstn (uint32 (length ys)) ys)).
  assert (Lf : length _f = N) by apply length_samples.
  rewrite vset_ok by (rewrite repeat_length; lia). cbn [bind].
  rewrite (vget_ok _f 0) by lia. cbn [bind].
  rewrite vset_ok by (rewrite repeat_length; lia). cbn [bind].
  destruct (stages_run N _t _f HN Ht Lf) with (m := (N - 1)%nat)
    as (f & w & c & Erun & _ & _ & Lc & _); [| lia |].
  - intros a b Hab E. apply (proj1 (NoDup_nth _t 0) Hd) in E; lia.
  - exists c. split; [exact Lc |]. rewrite Erun. reflexivity.
Qed.

(** The run of the constructor on doubles, by the number of abscissas,
    when the bounds have a difference other than zero and no two
    abscissas have the same image. *)
Lemma interpolant_double_run (xs : list double) (ys : list R)
  (xmin xmax : double) :
  PrimFloat.eqb
    (PrimFloat.sub (std_max_double xmin xmax) (std_min_double xmin xmax))
    PrimFloat.zero = false ->
  NoDup (map (fun v => double_value
                         (double_t (std_min_double xmin xmax)
                                   (std_max_double xmin xmax) v)) xs) ->
  Bernstein_interpolant_double xs ys xmin xmax <> Err DivisionByZero
  /\ ((1 <= length xs)%nat -> (Z.of_nat (length xs) <= 65535)%Z ->
      exists p, Bernstein_interpolant_double xs ys xmin xmax = Ok p
                /\ length (pars p) = length xs).
Proof.
  intros Hb Hd. unfold Bernstein_interpolant_double.
  set (lo := std_min_double xmin xmax) in *.
  set (hi := std_max_double xmin xmax) in *.
  set (self := mkBernstein _ _ _).
  assert (Hop : forall a, In a xs -> t_double lo hi a = Ok (double_t lo hi a))
    by (intros a _; apply t_double_ok; exact Hb).
  destruct (Nat.eq_dec (length xs) 0) as [H0 | H0].
  { apply length_zero_iff_nil in H0. subst xs. split; [| simpl; lia].
    cbn [length transform_double bind]. unfold interpolant_from.
    rewrite (uint32_small 0) by (simpl; lia).
    rewrite std_copy_samples. cbn [bind]. discriminate. }
  destruct (Z.ltb_spec (Z.of_nat (length xs)) (2 ^ 32)) as [Hfit | Hbig].
  - rewrite (uint32_small (length xs) Hfit).
    rewrite (transform_double_ok _ (double_t lo hi)); [| exact Hop |].
    2: { rewrite repeat_length. lia. }
    cbn [bind].
    rewrite skipn_all2 by (rewrite repeat_length; lia).
    rewrite app_nil_r.
    assert (Hp : length (pars self) = length xs).
    { unfold self, PolySum. cbn [pars]. rewrite repeat_length.
      destruct xs; [contradiction | simpl; lia]. }
    destruct (interpolant_from_run (length xs) ys
                (map (fun a => double_value (double_t lo hi a)) xs) self)
      as (c & Lc & E); try assumption; try lia.
    { apply length_map. }
    rewrite E. split.
    + apply set_pars_no_division; assumption.
    + intros _ Hshort. rewrite set_pars_ok by assumption.
      eexists. split; [reflexivity | exact Lc].
  - split; [| lia].
    rewrite (transform_double_short _ (double_t lo hi)); [discriminate | exact Hop |].
    rewrite repeat_length. pose proof (uint32_le (length xs)) as Hle.
    assert (Hne : uint32 (length xs) <> length xs).
    { intros E. apply uint32_fixed in E. lia. }
    lia.
Qed.

Ltac double_values :=
  unfold double_value;
  repeat match goal with
         | |- context [Prim2SF ?a] =>
             let v := eval vm_compute in (Prim2SF a) in
             change (Prim2SF a) with v
         end;
  cbv iota; unfold powerRZ;
  repeat match goal with
         | |- context [Pos.to_nat ?q] =>
             let v := eval vm_compute in (Pos.to_nat q) in
             change (Pos.to_nat q) with v
         end.

(** C10, as it is stated, fails: [t] is computed in double precision,
    and two distinct abscissas can have the same image.  On [-1, 1]
    the abscissas 0 and 2^-60 are distinct doubles, the bounds are
    distinct, and [t] gives 0.5 for both, since 2^-60 + 1 rounds to 1;
    the first divided difference then divides by t_1 - t_0 = 0. *)
Lemma distinct_abscissas_divide_by_zero :
  NoDup (map double_value [0%float; 0x1p-60%float])
  /\ double_value (-1)%float <> double_value 1%float
  /\ t_double (-1)%float 1%float 0%float = Ok 0.5%float
  /\ t_double (-1)%float 1%float 0x1p-60%float = Ok 0.5%float
  /\ Bernstein_interpolant_double [0%float; 0x1p-60%float] [0; 1]
       (-1)%float 1%float
     = Err DivisionByZero.
Proof.
  split; [| split; [| split; [| split]]].
  - cbn [map]. repeat constructor; cbn [In]; try tauto.
    intros [H | []]. revert H. double_values. lra.
  - double_values. lra.
  - reflexivity.
  - reflexivity.
  - unfold Bernstein_interpolant_double.
    change (std_min_double (-1)%float 1%float) with (-1)%float.
    change (std_max_double (-1)%float 1%float) with 1%float.
    rewrite (uint32_small (@length double [0%float; 0x1p-60%float]))
      by (simpl; lia).
    rewrite (transform_double_ok _ (double_t (-1)%float 1%float)).
    2: { intros a _. reflexivity. }
    2: { simpl. lia. }
    cbn [bind]. unfold interpolant_from.
    rewrite std_copy_samples. cbn [bind].
    rewrite vset_ok by (simpl; lia). cbn [bind].
    rewrite vget_ok by (rewrite length_samples; simpl; lia). cbn [bind].
    rewrite vset_ok by (simpl; lia). cbn [bind].
    cbn [length map skipn repeat Nat.max app Nat.sub seq for_each].
    change (double_t (-1)%float 1%float 0%float) with 0.5%float.
    change (double_t (-1)%float 1%float 0x1p-60%float) with 0.5%float.
    rewrite stage_fails; [reflexivity | lia | reflexivity | apply length_samples |].
    exists 1%nat. split; [lia | reflexivity].
Qed.

(** C10, amended.  When the difference of the bounds, as the doubles
    give it, is not zero and no two abscissas have the same image under
    [t], as the doubles give it, no division of the construction has a
    zero divisor: neither the division by xmax - xmin in [t], nor the
    division by t_k - t_(k-s) in a divided difference, nor the division
    by s in the update of [w] and [c]; and 1 to 65535 such abscissas
    give a polynomial of as many coefficients. *)
Theorem interpolant_never_divides_by_zero (xs : list double) (ys : list R)
  (xmin xmax : double) :
  PrimFloat.eqb
    (PrimFloat.sub (std_max_double xmin xmax) (std_min_double xmin xmax))
    PrimFloat.zero = false ->
  NoDup (map (fun v => double_value
                         (double_t (std_min_double xmin xmax)
                                   (std_max_double xmin xmax) v)) xs) ->
  Bernstein_interpolant_double xs ys xmin xmax <> Err DivisionByZero
  /\ ((1 <= length xs)%nat -> (Z.of_nat (length xs) <= 65535)%Z ->
      exists p, Bernstein_interpolant_double xs ys xmin xmax = Ok p
                /\ length (pars p) = length xs).
Proof.
  intros Hb Hd.
  destruct (interpolant_double_run xs ys xmin xmax Hb Hd) as (Hno & Hrun).
  split.
  - exact Hno.
  - intros HN Hshort. destruct (Hrun HN Hshort) as (p & E & Hlen).
    exists p. split; [exact E | exact Hlen].
Qed.

Lemma interpolant_never_divides_by_zero_witness :
  Bernstein_interpolant_double [0%float; 0.25%float; 2%float] [0; 1; 4]
    (-1)%float 2%float
  <> Err DivisionByZero
  /\ exists p,
       Bernstein_interpolant_double [0%float; 0.25%float; 2%float] [0; 1; 4]
         (-1)%float 2%float = Ok p
       /\ length (pars p) = 3%nat.
Proof.
  destruct (interpolant_never_divides_by_zero
              [0%float; 0.25%float; 2%float] [0; 1; 4] (-1)%float 2%float)
    as (Hno & Hrun).
  - reflexivity.
  - change (std_min_double (-1)%float 2%float) with (-1)%float.
    change (std_max_double (-1)%float 2%float) with 2%float.
    cbn [map].
    repeat match goal with
           | |- context [double_t ?a ?b ?c] =>
               let v := eval vm_compute in (double_t a b c) in
               change (double_t a b c) with v
           end.
    repeat constructor; cbn [In]; try tauto.
    + intros [H | [H | []]]; revert H; double_values; lra.
    + intros [H | []]; revert H; double_values; lra.
  - split; [exact Hno |]. apply Hrun; simpl; lia.
Defined.

(** ** The number of abscissas *)

Lemma transform_overflow (op : R -> result R) (src dst : list R) :
  (forall a, In a src -> exists b, op a = Ok b) ->
  (length dst < length src)%nat ->
  transform op src dst = Err OutOfRange.
Proof.
  revert dst. induction src as [| a src IH]; intros dst Hop Hlen.
  - simpl in Hlen. lia.
  - cbn [transform]. destruct (Hop a (or_introl eq_refl)) as (b & Eb).
    rewrite Eb. cbn [bind]. destruct dst as [| d dst]; [reflexivity |].
    rewrite IH; [reflexivity | |].
    + intros a' Ha'. apply Hop. right. exact Ha'.
    + simpl in Hlen. lia.
Qed.

(** With distinct abscissas and distinct bounds the outcome of the
    constructor is decided by the number N of abscissas: none is a store
    past the end of the empty vector [w]; from 1 to 65535 there is a
    polynomial, of N coefficients; above 65535 the last loop, whose
    counter has 16 bits, does not end; and from 2^32 on, where the
    32-bit [N] is less than the number of abscissas, [std::transform]
    writes past the end of [_t]. *)
Theorem interpolant_outcome_by_count (xs ys : list R) (xmin xmax : R) :
  NoDup xs -> xmin <> xmax ->
  (length xs = 0%nat ->
   Bernstein_interpolant xs ys xmin xmax = Err OutOfRange)
  /\ ((1 <= Z.of_nat (length xs) <= 65535)%Z ->
      exists p, Bernstein_interpolant xs ys xmin xmax = Ok p
                /\ length (pars p) = length xs)
  /\ ((65535 < Z.of_nat (length xs) < 2 ^ 32)%Z ->
      Bernstein_interpolant xs ys xmin xmax = Err Diverges)
  /\ ((2 ^ 32 <= Z.of_nat (length xs))%Z ->
      Bernstein_interpolant xs ys xmin xmax = Err OutOfRange).
Proof.
  intros Hd Hb. split; [| split; [| split]].
  - intros H0. apply length_zero_iff_nil in H0. subst xs.
    apply no_abscissa_is_out_of_range.
  - intros HN.
    destruct (interpolant_evaluates xs ys xmin xmax Hb)
      as (p & E & _ & _ & Hlen & _); try assumption; try lia.
    exists p. split; assumption.
  - intros HN. apply many_abscissas_diverge; assumption.
  - intros HN. unfold Bernstein_interpolant.
    rewrite transform_overflow; [reflexivity | |].
    + intros a _. eexists. apply t_ok. cbn [m_xmin m_xmax].
      apply std_bounds_apart. exact Hb.
    + rewrite repeat_length.
      assert (B : (0 <= Z.of_nat (length xs) mod 2 ^ 32 < 2 ^ 32)%Z)
        by (apply Z.mod_pos_bound; lia).
      unfold uint32. lia.
Qed.

Lemma interpolant_outcome_by_count_witness :
  exists p, Bernstein_interpolant [0; 1; 2] [0; 1; 4] 0 2 = Ok p
            /\ length (pars p) = 3%nat.
Proof.
  destruct (interpolant_outcome_by_count [0; 1; 2] [0; 1; 4] 0 2) as (_ & H & _).
  - repeat constructor; simpl; intros H; lra.
  - lra.
  - apply H. simpl. lia.
Defined.

(** ** The polynomial of the interpolant, as a function *)

Lemma basis_at_0 (n k : nat) : basis n k 0 = if (k =? 0)%nat then 1 else 0.
Proof.
  unfold basis. destruct k as [| k]; cbn [Nat.eqb].
  - rewrite binom_0_r, Rminus_0_r, pow1. simpl. ring.
  - rewrite pow_i by lia. ring.
Qed.

Lemma basis_at_1 (n k : nat) :
  (k <= n)%nat -> basis n k 1 = if (k =? n)%nat then 1 else 0.
Proof.
  intros Hk. unfold basis. rewrite pow1.
  replace (1 - 1) with 0 by ring.
  destruct (Nat.eqb_spec k n) as [-> | Hne].
  - rewrite binom_diag, Nat.sub_diag. simpl. ring.
  - rewrite pow_i by lia. ring.
Qed.

Lemma sumn_zero (n : nat) (F : nat -> R) :
  (forall k, (k < n)%nat -> F k = 0) -> sumn n F = 0.
Proof.
  induction n as [| n IH]; intros H; simpl; [reflexivity |].
  rewrite IH, H by auto. ring.
Qed.

(** At the two ends of the unit interval the polynomial has the value of
    its first and of its last coefficient. *)
Lemma bernstein_sum_at_0 (n : nat) (c : nat -> R) : bernstein_sum n c 0 = c O.
Proof.
  unfold bernstein_sum. rewrite sumn_shift, sumn_zero.
  - rewrite basis_at_0. simpl. ring.
  - intros k _. rewrite basis_at_0. simpl. ring.
Qed.

Lemma bernstein_sum_at_1 (n : nat) (c : nat -> R) : bernstein_sum n c 1 = c n.
Proof.
  unfold bernstein_sum. cbn [sumn]. rewrite sumn_zero.
  - rewrite basis_at_1, Nat.eqb_refl by lia. ring.
  - intros k Hk. rewrite basis_at_1 by lia.
    destruct (Nat.eqb_spec k n); [lia | ring].
Qed.

(** The spec's [evaluate] computes the value of the documentation. *)
Lemma evaluate_value (p : Bernstein) (x0 : R) :
  m_xmax p - m_xmin p <> 0 -> (1 <= length (pars p))%nat ->
  evaluate p x0 = Ok (bernstein_value p x0).
Proof.
  intros Hd Hlen. unfold evaluate, bernstein_value, degree.
  rewrite t_ok by exact Hd. cbn [bind]. f_equal.
  apply casteljau_bernstein_sum. lia.
Qed.

Lemma divdiff_ext (tv tv' fv fv' : nat -> R) (n : nat) :
  (forall k, (k <= n)%nat -> tv k = tv' k /\ fv k = fv' k) ->
  forall s i, (i + s <= n)%nat -> divdiff tv fv s i = divdiff tv' fv' s i.
Proof.
  intros H. induction s as [| s IH]; intros i Hi.
  - simpl. apply H. lia.
  - cbn [divdiff]. rewrite !IH by lia.
    rewrite (proj1 (H (i + S s)%nat ltac:(lia))), (proj1 (H i ltac:(lia))).
    reflexivity.
Qed.

Lemma omega_ext (tv tv' : nat -> R) (n : nat) (u : R) :
  (forall k, (k <= n)%nat -> tv k = tv' k) ->
  forall m i, (i + m <= S n)%nat -> omega tv i m u = omega tv' i m u.
Proof.
  intros H. induction m as [| m IH]; intros i Hi; [reflexivity |].
  cbn [omega]. rewrite IH by lia. rewrite H by lia. reflexivity.
Qed.

Lemma newton_ext (tv tv' fv fv' : nat -> R) (n : nat) (u : R) :
  (forall k, (k <= n)%nat -> tv k = tv' k /\ fv k = fv' k) ->
  forall s i, (i + s <= n)%nat -> newton tv fv i s u = newton tv' fv' i s u.
Proof.
  intros H. induction s as [| s IH]; intros i Hi.
  - simpl. apply H. lia.
  - cbn [newton]. rewrite IH by lia.
    rewrite (divdiff_ext tv tv' fv fv' n H) by lia.
    rewrite (omega_ext tv tv' n u) by (try lia; intros k Hk; apply H; exact Hk).
    reflexivity.
Qed.

(** The polynomial that the constructor builds is Newton's form on the
    images of the abscissas, with the divided differences of the first N
    values of [ys]. *)
Lemma interpolant_newton (xs ys : list R) (xmin xmax : R) :
  NoDup xs -> xmin <> xmax ->
  (1 <= length xs)%nat -> (Z.of_nat (length xs) <= 65535)%Z ->
  (Z.of_nat (length ys) < 2 ^ 32)%Z ->
  exists p,
    Bernstein_interpolant xs ys xmin xmax = Ok p
    /\ m_xmin p = std_min xmin xmax /\ m_xmax p = std_max xmin xmax
    /\ length (pars p) = length xs
    /\ forall x0,
         bernstein_value p x0
         = newton (fun k => (nth k xs 0 - std_min xmin xmax)
                            / (std_max xmin xmax - std_min xmin xmax))
                  (fun k => nth k ys 0) 0 (length xs - 1)
                  ((x0 - std_min xmin xmax)
                   / (std_max xmin xmax - std_min xmin xmax)).
Proof.
  intros Hd Hb HN Hshort Hys.
  destruct (interpolant_result xs ys xmin xmax Hb HN) as (c & Lc & Ic & E);
    try assumption; try lia.
  rewrite set_pars_ok in E; try assumption.
  2: { unfold PolySum. cbn [pars]. rewrite repeat_length. lia. }
  eexists. split; [exact E |]. cbn [m_xmin m_xmax pars].
  repeat split; try assumption.
  intros x0. unfold bernstein_value, degree. cbn [m_xmin m_xmax pars].
  rewrite Lc, Ic.
  apply (newton_ext _ _ _ _ (length xs - 1)); [| lia].
  intros k Hk. split.
  - set (g := fun x1 : R => _).
    rewrite (nth_indep (map g xs) 0 (g 0)) by (rewrite length_map; lia).
    rewrite (map_nth g). reflexivity.
  - rewrite samples_firstn_all by exact Hys. apply nth_samples. lia.
Qed.

(** Everything about a run of the constructor on distinct abscissas. *)
Lemma interpolant_facts (xs ys : list R) (xmin xmax : R) :
  NoDup xs -> xmin <> xmax ->
  (1 <= length xs)%nat -> (Z.of_nat (length xs) <= 65535)%Z ->
  (Z.of_nat (length ys) < 2 ^ 32)%Z ->
  exists p,
    Bernstein_interpolant xs ys xmin xmax = Ok p
    /\ m_xmin p = std_min xmin xmax /\ m_xmax p = std_max xmin xmax
    /\ length (pars p) = length xs
    /\ (forall i, (i < length xs)%nat ->
                  bernstein_value p (nth i xs 0) = nth i ys 0)
    /\ forall x0,
         bernstein_value p x0
         = newton (fun k => (nth k xs 0 - std_min xmin xmax)
                            / (std_max xmin xmax - std_min xmin xmax))
                  (fun k => nth k ys 0) 0 (length xs - 1)
                  ((x0 - std_min xmin xmax)
                   / (std_max xmin xmax - std_min xmin xmax)).
Proof.
  intros Hd Hb HN Hshort Hys.
  destruct (interpolant_newton xs ys xmin xmax Hd Hb HN Hshort Hys)
    as (p & E & Hlo & Hhi & Hlen & Hnew).
  destruct (interpolant_exact xs ys xmin xmax Hd Hb HN Hshort Hys)
    as (p' & E' & _ & _ & Hev).
  rewrite E in E'. inversion E'. subst p'.
  exists p. repeat split; try assumption.
  intros i Hi. specialize (Hev i Hi).
  rewrite evaluate_value in Hev.
  - now inversion Hev.
  - rewrite Hlo, Hhi. apply std_bounds_apart. exact Hb.
  - lia.
Qed.

Lemma samples_at_the_bounds (xs ys : list R) (xmin xmax : R) :
  NoDup xs -> xmin <> xmax ->
  (1 <= length xs)%nat -> (Z.of_nat (length xs) <= 65535)%Z ->
  length ys = length xs ->
  exists p,
    Bernstein_interpolant xs ys xmin xmax = Ok p
    /\ forall i, (i < length xs)%nat ->
         (nth i xs 0 = Rmin xmin xmax -> nth 0 (pars p) 0 = nth i ys 0)
         /\ (nth i xs 0 = Rmax xmin xmax ->
             nth (length xs - 1) (pars p) 0 = nth i ys 0).
Proof.
  intros Hd Hb HN Hshort Hys.
  destruct (interpolant_facts xs ys xmin xmax Hd Hb HN Hshort)
    as (p & E & Hlo & Hhi & Hlen & Hval & _); [lia |].
  exists p. split; [exact E |].
  assert (Hdiff : std_max xmin xmax - std_min xmin xmax <> 0)
    by (apply std_bounds_apart; exact Hb).
  intros i Hi. specialize (Hval i Hi). unfold bernstein_value, degree in Hval.
  rewrite Hlo, Hhi, Hlen in Hval. split; intros Ex.
  - rewrite Ex, <- std_min_Rmin in Hval.
    replace ((std_min xmin xmax - std_min xmin xmax)
             / (std_max xmin xmax - std_min xmin xmax)) with 0 in Hval
      by (field; exact Hdiff).
    rewrite bernstein_sum_at_0 in Hval. exact Hval.
  - rewrite Ex, <- std_max_Rmax in Hval.
    replace ((std_max xmin xmax - std_min xmin xmax)
             / (std_max xmin xmax - std_min xmin xmax)) with 1 in Hval
      by (field; exact Hdiff).
    rewrite bernstein_sum_at_1 in Hval. exact Hval.
Qed.

(** A sample at a bound of the interval is a coefficient of the
    polynomial: the value at an abscissa equal to the lower bound is the
    first coefficient, the value at an abscissa equal to the upper bound
    is the last one. *)
Theorem interpolant_end_coefficients (xs ys : list R) (xmin xmax : R) :
  NoDup xs -> xmin <> xmax ->
  (1 <= length xs)%nat -> (Z.of_nat (length xs) <= 65535)%Z ->
  length ys = length xs ->
  exists p,
    Bernstein_interpolant xs ys xmin xmax = Ok p
    /\ forall i, (i < length xs)%nat ->
         (nth i xs 0 = Rmin xmin xmax -> nth 0 (pars p) 0 = nth i ys 0)
         /\ (nth i xs 0 = Rmax xmin xmax ->
             nth (length xs - 1) (pars p) 0 = nth i ys 0).
Proof.
  exact (samples_at_the_bounds xs ys xmin xmax).
Qed.

Lemma interpolant_end_coefficients_witness :
  exists p,
    Bernstein_interpolant [2; 1; 0] [4; 1; 7] 0 2 = Ok p
    /\ nth 0 (pars p) 0 = 7 /\ nth 2 (pars p) 0 = 4.
Proof.
  destruct (interpolant_end_coefficients [2; 1; 0] [4; 1; 7] 0 2) as (p & E & H).
  - repeat constructor; simpl; intros H; lra.
  - lra.
  - simpl. lia.
  - simpl. lia.
  - reflexivity.
  - assert (Hmin : Rmin 0 2 = 0) by (unfold Rmin; destruct (Rle_dec 0 2); lra).
    assert (Hmax : Rmax 0 2 = 2) by (unfold Rmax; destruct (Rle_dec 0 2); lra).
    exists p. split; [exact E |]. rewrite Hmin, Hmax in H. split.
    + apply (proj1 (H 2%nat ltac:(simpl; lia))). reflexivity.
    + apply (proj2 (H 0%nat ltac:(simpl; lia))). reflexivity.
Defined.

(** ** Interpolation of a function *)

Lemma bernstein_func_unfold (func : R -> R) (xs : list R) (xmin xmax : R) :
  (Z.of_nat (length xs) < 2 ^ 32)%Z ->
  Interpolation.bernstein_func func xs xmin xmax
  = Bernstein_interpolant xs (map func xs) xmin xmax.
Proof.
  intros Hfit. unfold Interpolation.bernstein_func.
  rewrite (uint32_small _ Hfit).
  rewrite (transform_ok _ func).
  - cbn [bind]. rewrite skipn_all2 by (rewrite repeat_length; lia).
    rewrite app_nil_r. reflexivity.
  - reflexivity.
  - rewrite repeat_length. lia.
Qed.

(** The overload of [Interpolation::bernstein] that takes a function
    samples it at the abscissas and nowhere else: two functions that
    agree at the abscissas give the same polynomial, and the polynomial
    takes the value of the function at every abscissa. *)
Theorem bernstein_func_interpolates (func func' : R -> R) (xs : list R)
  (xmin xmax : R) :
  NoDup xs -> xmin <> xmax ->
  (1 <= length xs)%nat -> (Z.of_nat (length xs) <= 65535)%Z ->
  (forall a, In a xs -> func a = func' a) ->
  exists p,
    Interpolation.bernstein_func func xs xmin xmax = Ok p
    /\ Interpolation.bernstein_func func' xs xmin xmax = Ok p
    /\ forall a, In a xs -> bernstein_value p a = func a.
Proof.
  intros Hd Hb HN Hshort Hagree.
  rewrite !bernstein_func_unfold by lia.
  rewrite <- (map_ext_in func func' xs Hagree).
  destruct (interpolant_facts xs (map func xs) xmin xmax Hd Hb HN Hshort)
    as (p & E & _ & _ & _ & Hval & _); [rewrite length_map; lia |].
  exists p. split; [exact E |]. split; [exact E |].
  intros a Ha. destruct (In_nth xs a 0 Ha) as (i & Hi & Ei).
  specialize (Hval i Hi). rewrite Ei in Hval. rewrite Hval.
  rewrite (nth_indep (map func xs) 0 (func 0)) by (rewrite length_map; lia).
  rewrite map_nth, Ei. reflexivity.
Qed.

Lemma bernstein_func_interpolates_witness :
  exists p,
    Interpolation.bernstein_func (fun a => a * a) [0; 1; 2] 0 2 = Ok p
    /\ bernstein_value p 2 = 2 * 2.
Proof.
  destruct (bernstein_func_interpolates (fun a => a * a) (fun a => a * a)
              [0; 1; 2] 0 2) as (p & E & _ & H).
  - repeat constructor; simpl; intros H; lra.
  - lra.
  - simpl. lia.
  - simpl. lia.
  - reflexivity.
  - exists p. split; [exact E |]. apply H. simpl. tauto.
Defined.

(** ** Sums of samples *)

Lemma divdiff_linear (tv f g : nat -> R) (alpha : R) (s i : nat) :
  divdiff tv (fun k => alpha * f k + g k) s i
  = alpha * divdiff tv f s i + divdiff tv g s i.
Proof.
  revert i. induction s as [| s IH]; intros i; [reflexivity |].
  cbn [divdiff]. rewrite !IH. unfold Rdiv. ring.
Qed.

Lemma newton_linear (tv f g : nat -> R) (alpha : R) (i s : nat) (u : R) :
  newton tv (fun k => alpha * f k + g k) i s u
  = alpha * newton tv f i s u + newton tv g i s u.
Proof.
  induction s as [| s IH]; [reflexivity |].
  cbn [newton]. rewrite IH, divdiff_linear. ring.
Qed.

(** The polynomial is linear in the samples: on the same abscissas and
    the same interval, the samples alpha * y1_i + y2_i give alpha times
    the polynomial of y1 plus the polynomial of y2, at every x. *)
Theorem interpolant_linear_in_samples (xs ys1 ys2 ys : list R)
  (xmin xmax alpha : R) :
  NoDup xs -> xmin <> xmax ->
  (1 <= length xs)%nat -> (Z.of_nat (length xs) <= 65535)%Z ->
  length ys1 = length xs -> length ys2 = length xs -> length ys = length xs ->
  (forall i, (i < length xs)%nat ->
             nth i ys 0 = alpha * nth i ys1 0 + nth i ys2 0) ->
  exists p1 p2 p,
    Bernstein_interpolant xs ys1 xmin xmax = Ok p1
    /\ Bernstein_interpolant xs ys2 xmin xmax = Ok p2
    /\ Bernstein_interpolant xs ys xmin xmax = Ok p
    /\ forall x0,
         bernstein_value p x0
         = alpha * bernstein_value p1 x0 + bernstein_value p2 x0.
Proof.
  intros Hd Hb HN Hshort H1 H2 H Hsum.
  destruct (interpolant_facts xs ys1 xmin xmax Hd Hb HN Hshort)
    as (p1 & E1 & _ & _ & _ & _ & N1); [lia |].
  destruct (interpolant_facts xs ys2 xmin xmax Hd Hb HN Hshort)
    as (p2 & E2 & _ & _ & _ & _ & N2); [lia |].
  destruct (interpolant_facts xs ys xmin xmax Hd Hb HN Hshort)
    as (p & E & _ & _ & _ & _ & N0); [lia |].
  exists p1, p2, p. repeat split; try assumption.
  intros x0. rewrite N0, N1, N2, <- newton_linear.
  apply (newton_ext _ _ _ _ (length xs - 1)); [| lia].
  intros k Hk. split; [reflexivity |]. apply Hsum. lia.
Qed.

Lemma interpolant_linear_in_samples_witness :
  exists p1 p2 p,
    Bernstein_interpolant [0; 1] [1; 2] 0 1 = Ok p1
    /\ Bernstein_interpolant [0; 1] [5; 7] 0 1 = Ok p2
    /\ Bernstein_interpolant [0; 1] [8; 13] 0 1 = Ok p
    /\ forall x0,
         bernstein_value p x0 = 3 * bernstein_value p1 x0 + bernstein_value p2 x0.
Proof.
  apply (interpolant_linear_in_samples [0; 1] [1; 2] [5; 7] [8; 13] 0 1 3).
  - repeat constructor; simpl; intros H; lra.
  - lra.
  - simpl. lia.
  - simpl. lia.
  - reflexivity.
  - reflexivity.
  - reflexivity.
  - intros [| [| i]] Hi; simpl in *; try lra; lia.
Defined.

(** ** lobatto, degree by degree *)

(** Degree 0: one sample, at the middle of the two bounds as they are
    given, and the constant polynomial with that value. *)
Theorem lobatto_degree_0 (func : R -> R) (xmin xmax : R) :
  xmin <> xmax ->
  exists p,
    Interpolation.lobatto func 0 xmin xmax = Ok p
    /\ pars p = [func (0.5 * (xmin + xmax))]
    /\ forall x0, bernstein_value p x0 = func (0.5 * (xmin + xmax)).
Proof.
  intros Hb. destruct (lobatto_constant func xmin xmax Hb) as (p & E & Ep).
  exists p. split; [exact E |]. split; [exact Ep |].
  intros x0. unfold bernstein_value, degree. rewrite Ep.
  unfold bernstein_sum, basis. simpl. ring.
Qed.

Lemma lobatto_degree_0_witness :
  exists p,
    Interpolation.lobatto (fun a => a * a) 0 1 3 = Ok p
    /\ pars p = [(0.5 * (1 + 3)) * (0.5 * (1 + 3))]
    /\ forall x0, bernstein_value p x0 = (0.5 * (1 + 3)) * (0.5 * (1 + 3)).
Proof.
  apply (lobatto_degree_0 (fun a => a * a) 1 3). lra.
Defined.

(** Degree 1: the grid is the two bounds, and the coefficients of the
    polynomial are the values of the function at the lower and at the
    upper bound. *)
Theorem lobatto_degree_1 (func : R -> R) (xmin xmax : R) :
  xmin <> xmax ->
  exists p,
    Interpolation.lobatto func 1 xmin xmax = Ok p
    /\ pars p = [func (Rmin xmin xmax); func (Rmax xmin xmax)].
Proof.
  intros Hb. unfold Interpolation.lobatto. cbn [Nat.eqb].
  assert (G : Interpolation.lobatto_grid 1 xmin xmax
              = Ok [std_min xmin xmax; std_max xmin xmax]) by reflexivity.
  rewrite G. cbn [bind].
  rewrite bernstein_func_unfold by (simpl; lia).
  assert (Hne : std_min xmin xmax <> std_max xmin xmax).
  { pose proof (std_bounds_apart xmin xmax Hb). lra. }
  destruct (samples_at_the_bounds [std_min xmin xmax; std_max xmin xmax]
              (map func [std_min xmin xmax; std_max xmin xmax]) xmin xmax)
    as (p & E & Hend).
  - repeat constructor; simpl; intros H; intuition.
  - exact Hb.
  - simpl. lia.
  - simpl. lia.
  - reflexivity.
  - exists p. split; [exact E |].
    apply interpolant_ok_inv in E as (_ & _ & Hlen & _).
    destruct (pars p) as [| c0 [| c1 [| c2 rest]]] eqn:Ep; simpl in Hlen; try lia.
    pose proof (proj1 (Hend 0%nat ltac:(simpl; lia))) as H0.
    pose proof (proj2 (Hend 1%nat ltac:(simpl; lia))) as H1.
    cbn in H0, H1.
    rewrite <- std_min_Rmin, <- std_max_Rmax.
    rewrite H0, H1 by (rewrite <- ?std_min_Rmin, <- ?std_max_Rmax; reflexivity).
    reflexivity.
Qed.

Lemma lobatto_degree_1_witness :
  exists p,
    Interpolation.lobatto (fun a => a * a) 1 3 1 = Ok p
    /\ pars p = [Rmin 3 1 * Rmin 3 1; Rmax 3 1 * Rmax 3 1].
Proof.
  apply (lobatto_degree_1 (fun a => a * a) 3 1). lra.
Defined.

(** Degree 2 and more: the grid has N+1 points, the lower bound first
    and the upper bound last, the cosine points at the indices 1 to N-2,
    and at the index N-1 the zero of the creation of the vector, which
    the loop over the interior points does not reach. *)
Theorem lobatto_grid_for_degree (N : nat) (xmin xmax : R) :
  (2 <= N)%nat ->
  exists g,
    Interpolation.lobatto_grid N xmin xmax = Ok g
    /\ length g = S N
    /\ nth 0 g 0 = Rmin xmin xmax
    /\ nth N g 0 = Rmax xmin xmax
    /\ (forall k, (1 <= k <= N - 2)%nat ->
          nth k g 0
          = 0.5 * (Rmin xmin xmax + Rmax xmin xmax)
            - cos (PI / INR (N - 1) * INR k)
              * (0.5 * (Rmax xmin xmax - Rmin xmin xmax)))
    /\ nth (N - 1) g 0 = 0.
Proof.
  exact (lobatto_grid_shape N xmin xmax).
Qed.

Lemma lobatto_grid_for_degree_witness :
  exists g,
    Interpolation.lobatto_grid 4 1 3 = Ok g
    /\ length g = 5%nat /\ nth 0 g 0 = Rmin 1 3 /\ nth 4 g 0 = Rmax 1 3
    /\ nth 3 g 0 = 0.
Proof.
  destruct (lobatto_grid_for_degree 4 1 3) as (g & E & Hl & H0 & HN & _ & Hz).
  - lia.
  - exists g. repeat split; assumption.
Defined.

(** With a bound of the interval equal to 0, as on [0,1], the zero at
    the index N-1 of the grid is twice in the grid, and [lobatto] of
    degree 2 or more divides by zero, whatever the function. *)
Theorem lobatto_zero_bound_divides_by_zero (func : R -> R) (N : nat)
  (xmin xmax : R) :
  (2 <= N)%nat -> (Z.of_nat N <= 65535)%Z -> xmin <> xmax ->
  Rmin xmin xmax = 0 \/ Rmax xmin xmax = 0 ->
  Interpolation.lobatto func N xmin xmax = Err DivisionByZero.
Proof.
  intros HN Hshort Hb Hzero. unfold Interpolation.lobatto.
  destruct (Nat.eqb_spec N 0) as [| _]; [lia |].
  destruct (lobatto_grid_shape N xmin xmax HN)
    as (g & E & Hl & H0 & Hlast & _ & Hz).
  rewrite E. cbn [bind].
  rewrite bernstein_func_unfold by lia.
  apply equal_nodes_divide_by_zero; try lia.
  right. intros Hnd.
  pose proof (proj1 (NoDup_nth g 0) Hnd) as Hinj.
  destruct Hzero as [Hmin | Hmax].
  - assert (F : 0%nat = (N - 1)%nat) by (apply Hinj; lia || congruence).
    lia.
  - assert (F : N = (N - 1)%nat) by (apply Hinj; lia || congruence).
    lia.
Qed.

Lemma lobatto_zero_bound_divides_by_zero_witness :
  Interpolation.lobatto (fun a => a * a) 5 0 1 = Err DivisionByZero.
Proof.
  apply lobatto_zero_bound_divides_by_zero.
  - lia.
  - lia.
  - lra.
  - left. unfold Rmin. destruct (Rle_dec 0 1); lra.
Defined.

(** When the points of its grid are distinct, [lobatto] of degree 2 or
    more gives the polynomial that has the values of the function on the
    grid: at the two bounds and also at 0, which is in the grid whatever
    the interval. *)
Theorem lobatto_interpolates_on_its_grid (func : R -> R) (N : nat)
  (xmin xmax : R) (g : list R) :
  (2 <= N)%nat -> (Z.of_nat N < 65535)%Z -> xmin <> xmax ->
  Interpolation.lobatto_grid N xmin xmax = Ok g -> NoDup g ->
  exists p,
    Interpolation.lobatto func N xmin xmax = Ok p
    /\ (forall a, In a g -> bernstein_value p a = func a)
    /\ In (Rmin xmin xmax) g /\ In (Rmax xmin xmax) g /\ In 0 g.
Proof.
  intros HN Hshort Hb E Hnd.
  destruct (lobatto_grid_shape N xmin xmax HN)
    as (g' & E' & Hl & H0 & Hlast & _ & Hz).
  rewrite E in E'. inversion E'. subst g'.
  unfold Interpolation.lobatto.
  destruct (Nat.eqb_spec N 0) as [| _]; [lia |].
  rewrite E. cbn [bind].
  rewrite bernstein_func_unfold by lia.
  destruct (interpolant_facts g (map func g) xmin xmax Hnd Hb)
    as (p & Ep & _ & _ & _ & Hval & _); try (rewrite ?length_map; lia).
  exists p. split; [exact Ep |]. split.
  - intros a Ha. destruct (In_nth g a 0 Ha) as (i & Hi & Ei).
    specialize (Hval i Hi). rewrite Ei in Hval. rewrite Hval.
    rewrite (nth_indep (map func g) 0 (func 0)) by (rewrite length_map; lia).
    rewrite map_nth, Ei. reflexivity.
  - repeat split.
    + rewrite <- H0. apply nth_In. lia.
    + rewrite <- Hlast. apply nth_In. lia.
    + rewrite <- Hz. apply nth_In. lia.
Qed.

Lemma lobatto_interpolates_on_its_grid_witness :
  exists p,
    Interpolation.lobatto (fun a => a * a) 2 1 3 = Ok p
    /\ bernstein_value p 0 = 0 * 0.
Proof.
  assert (Hmin : std_min 1 3 = 1) by (unfold std_min; destruct (Rlt_dec 3 1); lra).
  assert (Hmax : std_max 1 3 = 3) by (unfold std_max; destruct (Rlt_dec 1 3); lra).
  assert (G : Interpolation.lobatto_grid 2 1 3 = Ok [1; 0; 3]).
  { unfold Interpolation.lobatto_grid. rewrite Hmin, Hmax. reflexivity. }
  destruct (lobatto_interpolates_on_its_grid (fun a => a * a) 2 1 3 [1; 0; 3])
    as (p & E & H & _).
  - lia.
  - lia.
  - lra.
  - exact G.
  - repeat constructor; simpl; intros H; lra.
  - exists p. split; [exact E |]. apply H. simpl. tauto.
Defined.

(** ** Samples of a polynomial *)

Section DividedDifferencesOfPolynomials.

Variable tv : nat -> R.
Variable n : nat.
Hypothesis distinct : forall a b, (a < b <= n)%nat -> tv a <> tv b.

Lemma divdiff_plus (f g : nat -> R) (s i : nat) :
  divdiff tv (fun k => f k + g k) s i = divdiff tv f s i + divdiff tv g s i.
Proof.
  revert i. induction s as [| s IH]; intros i; [reflexivity |].
  cbn [divdiff]. rewrite !IH. unfold Rdiv. ring.
Qed.

Lemma divdiff_const (a : R) (s i : nat) :
  divdiff tv (fun _ => a) (S s) i = 0.
Proof.
  revert i. induction s as [| s IH]; intros i.
  - cbn [divdiff]. unfold Rdiv. ring.
  - change (divdiff tv (fun _ => a) (S (S s)) i)
      with ((divdiff tv (fun _ => a) (S s) (S i)
             - divdiff tv (fun _ => a) (S s) i)
            / (tv (i + S (S s))%nat - tv i)).
    rewrite !IH. unfold Rdiv. ring.
Qed.

(** The divided differences of the product by the variable. *)
Lemma divdiff_times_variable (g : nat -> R) (s i : nat) :
  (i + S s <= n)%nat ->
  divdiff tv (fun k => tv k * g k) (S s) i
  = tv (i + S s)%nat * divdiff tv g (S s) i + divdiff tv g s i.
Proof.
  revert i. induction s as [| s IH]; intros i Hi.
  - cbn [divdiff].
    assert (Hd : tv (i + 1)%nat - tv i <> 0).
    { intros E. apply (distinct i (i + 1)%nat); [lia | lra]. }
    replace (S i) with (i + 1)%nat by lia. field. exact Hd.
  - assert (Hd : tv (i + S (S s))%nat - tv i <> 0).
    { intros E. apply (distinct i (i + S (S s))%nat); [lia | lra]. }
    apply (Rmult_eq_reg_r (tv (i + S (S s))%nat - tv i)); [| exact Hd].
    rewrite (divdiff_step tv _ n distinct (S s) i Hi).
    rewrite (IH (S i)), (IH i) by lia.
    pose proof (divdiff_step tv g n distinct s i ltac:(lia)) as E3.
    pose proof (divdiff_step tv g n distinct (S s) i Hi) as E4.
    replace (S i + S s)%nat with (i + S (S s))%nat by lia.
    replace (divdiff tv g s (S i))
      with (divdiff tv g s i + divdiff tv g (S s) i * (tv (i + S s)%nat - tv i))
      by lra.
    replace (divdiff tv g (S s) (S i))
      with (divdiff tv g (S s) i
            + divdiff tv g (S (S s)) i * (tv (i + S (S s))%nat - tv i))
      by lra.
    ring.
Qed.

Lemma newton_plus (f g : nat -> R) (i s : nat) (u : R) :
  newton tv (fun k => f k + g k) i s u = newton tv f i s u + newton tv g i s u.
Proof.
  induction s as [| s IH]; [reflexivity |].
  cbn [newton]. rewrite IH, divdiff_plus. ring.
Qed.

Lemma newton_const (a : R) (i s : nat) (u : R) :
  newton tv (fun _ => a) i s u = a.
Proof.
  induction s as [| s IH]; [reflexivity |].
  rewrite newton_S, IH, divdiff_const. ring.
Qed.

(** Newton's form of the product by the variable. *)
Lemma newton_times_variable (g : nat -> R) (s i : nat) (u : R) :
  (i + s <= n)%nat ->
  newton tv (fun k => tv k * g k) i s u
  = u * newton tv g i s u - divdiff tv g s i * omega tv i (S s) u.
Proof.
  induction s as [| s IH]; intros Hi.
  - simpl. rewrite Nat.add_0_r. ring.
  - rewrite newton_S, IH, divdiff_times_variable by lia.
    rewrite (newton_S tv g), (omega_S tv i (S s)). ring.
Qed.

(** The divided differences of an order above the degree are zero. *)
Lemma divdiff_horner (q : list R) (s i : nat) :
  (length q <= s)%nat -> (i + s <= n)%nat ->
  divdiff tv (fun k => horner q (tv k)) s i = 0.
Proof.
  revert s i. induction q as [| a q IH]; intros s i Hq Hi.
  - clear Hq Hi. revert i. induction s as [| s IHs]; intros i; [reflexivity |].
    cbn [divdiff horner] in *. rewrite !IHs. unfold Rdiv. ring.
  - destruct s as [| s]; [simpl in Hq; lia |].
    cbn [horner].
    rewrite (divdiff_plus (fun _ => a) (fun k => tv k * horner q (tv k))).
    rewrite divdiff_const, divdiff_times_variable by lia.
    rewrite (IH (S s)), (IH s) by (simpl in Hq; lia). ring.
Qed.

(** Newton's form on s+1 nodes reproduces a polynomial of at most s+1
    coefficients. *)
Lemma newton_horner (q : list R) (s i : nat) (u : R) :
  (length q <= S s)%nat -> (i + s <= n)%nat ->
  newton tv (fun k => horner q (tv k)) i s u = horner q u.
Proof.
  revert s i. induction q as [| a q IH]; intros s i Hq Hi.
  - cbn [horner]. apply (newton_const 0).
  - cbn [horner].
    rewrite (newton_plus (fun _ => a) (fun k => tv k * horner q (tv k))).
    rewrite newton_const, newton_times_variable by lia.
    rewrite divdiff_horner by (simpl in Hq; lia).
    rewrite IH by (simpl in Hq; lia). ring.
Qed.

End DividedDifferencesOfPolynomials.

(** Newton's form on the abscissas and Newton's form on their images in
    the unit interval are the same function. *)
Section ChangeOfVariable.

Variables xv fv : nat -> R.
Variable n : nat.
Variables lo d : R.
Hypothesis distinct : forall a b, (a < b <= n)%nat -> xv a <> xv b.
Hypothesis apart : d <> 0.

Let tv := fun k => (xv k - lo) / d.

Lemma divdiff_images (s i : nat) :
  (i + s <= n)%nat ->
  divdiff tv fv s i = d ^ s * divdiff xv fv s i.
Proof.
  revert i. induction s as [| s IH]; intros i Hi.
  - simpl. ring.
  - cbn [divdiff]. rewrite !IH by lia. unfold tv.
    assert (Hd : xv (i + S s)%nat - xv i <> 0).
    { intros E. apply (distinct i (i + S s)%nat); [lia | lra]. }
    rewrite <- tech_pow_Rmult. field. split; assumption.
Qed.

Lemma omega_images (m i : nat) (x0 : R) :
  d ^ m * omega tv i m ((x0 - lo) / d) = omega xv i m x0.
Proof.
  induction m as [| m IH].
  - simpl. ring.
  - cbn [omega]. rewrite <- IH, <- tech_pow_Rmult. unfold tv. field. exact apart.
Qed.

Lemma newton_images (s i : nat) (x0 : R) :
  (i + s <= n)%nat ->
  newton tv fv i s ((x0 - lo) / d) = newton xv fv i s x0.
Proof.
  induction s as [| s IH]; intros Hi; [reflexivity |].
  cbn [newton]. rewrite IH by lia.
  rewrite divdiff_images by lia.
  rewrite <- (omega_images (S s) i x0). ring.
Qed.

End ChangeOfVariable.

(** ** The interpolant as a function of x *)

Lemma abscissas_distinct (xs : list R) (a b : nat) :
  NoDup xs -> (a < b <= length xs - 1)%nat -> nth a xs 0 <> nth b xs 0.
Proof.
  intros Hd Hab E. apply (proj1 (NoDup_nth xs 0) Hd) in E; lia.
Qed.

(** The polynomial that the constructor builds has, at every x, the
    value of Newton's interpolation polynomial on the abscissas
    themselves: the interval does not enter. *)
Lemma interpolant_newton_in_x (xs ys : list R) (xmin xmax : R) :
  NoDup xs -> xmin <> xmax ->
  (1 <= length xs)%nat -> (Z.of_nat (length xs) <= 65535)%Z ->
  (Z.of_nat (length ys) < 2 ^ 32)%Z ->
  exists p,
    Bernstein_interpolant xs ys xmin xmax = Ok p
    /\ forall x0,
         bernstein_value p x0
         = newton (fun k => nth k xs 0) (fun k => nth k ys 0)
                  0 (length xs - 1) x0.
Proof.
  intros Hd Hb HN Hshort Hys.
  destruct (interpolant_newton xs ys xmin xmax Hd Hb HN Hshort Hys)
    as (p & E & _ & _ & _ & Hnew).
  exists p. split; [exact E |]. intros x0. rewrite Hnew.
  apply (newton_images (fun k => nth k xs 0) (fun k => nth k ys 0)
           (length xs - 1)).
  - intros a b Hab. apply abscissas_distinct; assumption.
  - apply std_bounds_apart. exact Hb.
  - lia.
Qed.

(** Samples of a polynomial of fewer coefficients than there are
    abscissas give that polynomial, everywhere and not only at the
    abscissas: for y_i = q(x_i) with q of degree below N, the value of
    the interpolant at every x is q(x). *)
Theorem interpolant_reproduces_polynomials
    (xs ys q : list R) (xmin xmax : R) :
  NoDup xs -> xmin <> xmax ->
  (1 <= length xs)%nat -> (Z.of_nat (length xs) <= 65535)%Z ->
  length ys = length xs ->
  (length q <= length xs)%nat ->
  (forall i, (i < length xs)%nat -> nth i ys 0 = horner q (nth i xs 0)) ->
  exists p,
    Bernstein_interpolant xs ys xmin xmax = Ok p
    /\ forall x0, bernstein_value p x0 = horner q x0.
Proof.
  intros Hd Hb HN Hshort Hys Hq Hval.
  destruct (interpolant_newton_in_x xs ys xmin xmax Hd Hb HN Hshort)
    as (p & E & Hnew); [lia |].
  exists p. split; [exact E |]. intros x0. rewrite Hnew.
  rewrite (newton_ext _ (fun k => nth k xs 0) _
             (fun k => horner q (nth k xs 0)) (length xs - 1)).
  - apply (newton_horner (fun k => nth k xs 0) (length xs - 1)).
    + intros a b Hab. apply abscissas_distinct; assumption.
    + lia.
    + lia.
  - intros k Hk. split; [reflexivity | apply Hval; lia].
  - lia.
Qed.

Lemma interpolant_reproduces_polynomials_witness :
  exists p,
    Bernstein_interpolant [0; 1; 3] [1; 2; 10] 0 4 = Ok p
    /\ forall x0, bernstein_value p x0 = horner [1; 0; 1] x0.
Proof.
  apply (interpolant_reproduces_polynomials [0; 1; 3] [1; 2; 10] [1; 0; 1] 0 4).
  - repeat constructor; simpl; intros H; lra.
  - lra.
  - simpl. lia.
  - simpl. lia.
  - reflexivity.
  - simpl. lia.
  - intros [| [| [| i]]] Hi; simpl in *; try lra; lia.
Defined.

(** The interval changes the coefficients and where the call operator
    is zero, not the polynomial: built on two intervals from the same
    samples, the two interpolants have the same value at every x. *)
Theorem interpolant_same_on_any_interval
    (xs ys : list R) (xmin xmax xmin' xmax' : R) :
  NoDup xs -> xmin <> xmax -> xmin' <> xmax' ->
  (1 <= length xs)%nat -> (Z.of_nat (length xs) <= 65535)%Z ->
  (Z.of_nat (length ys) < 2 ^ 32)%Z ->
  exists p p',
    Bernstein_interpolant xs ys xmin xmax = Ok p
    /\ Bernstein_interpolant xs ys xmin' xmax' = Ok p'
    /\ forall x0, bernstein_value p x0 = bernstein_value p' x0.
Proof.
  intros Hd Hb Hb' HN Hshort Hys.
  destruct (interpolant_newton_in_x xs ys xmin xmax Hd Hb HN Hshort Hys)
    as (p & E & Hnew).
  destruct (interpolant_newton_in_x xs ys xmin' xmax' Hd Hb' HN Hshort Hys)
    as (p' & E' & Hnew').
  exists p, p'. repeat split; try assumption.
  intros x0. rewrite Hnew, Hnew'. reflexivity.
Qed.

Lemma interpolant_same_on_any_interval_witness :
  exists p p',
    Bernstein_interpolant [0; 1; 3] [1; 2; 10] 0 4 = Ok p
    /\ Bernstein_interpolant [0; 1; 3] [1; 2; 10] (-1) 7 = Ok p'
    /\ forall x0, bernstein_value p x0 = bernstein_value p' x0.
Proof.
  apply (interpolant_same_on_any_interval [0; 1; 3] [1; 2; 10] 0 4 (-1) 7).
  - repeat constructor; simpl; intros H; lra.
  - lra.
  - lra.
  - simpl. lia.
  - simpl. lia.
  - simpl. lia.
Defined.

(** ** The order of the samples *)

Lemma horner_sum (a b : list R) :
  exists c,
    (length c <= Nat.max (length a) (length b))%nat
    /\ forall u, horner c u = horner a u + horner b u.
Proof.
  revert b. induction a as [| x a IH]; intros b.
  - exists b. split; [simpl; lia | intros u; simpl; ring].
  - destruct b as [| y b].
    + exists (x :: a). split; [simpl; lia | intros u; simpl; ring].
    + destruct (IH b) as (c & L & H). exists ((x + y) :: c).
      split; [simpl; lia | intros u; simpl; rewrite H; ring].
Qed.

Lemma horner_scale (c : R) (w : list R) (u : R) :
  horner (map (Rmult c) w) u = c * horner w u.
Proof.
  induction w as [| a w IH]; simpl; [ring | rewrite IH; ring].
Qed.

Lemma omega_as_horner (tv : nat -> R) (i m : nat) :
  exists w,
    (length w <= S m)%nat /\ forall u, horner w u = omega tv i m u.
Proof.
  induction m as [| m (w & L & H)].
  - exists [1]. split; [simpl; lia | intros u; simpl; ring].
  - destruct (horner_sum (0 :: w) (map (Rmult (- tv (i + m)%nat)) w))
      as (c & Lc & Hc).
    exists c. split.
    + rewrite length_map in Lc. cbn [length] in Lc. lia.
    + intros u. rewrite Hc, horner_scale. cbn [horner omega].
      rewrite H. ring.
Qed.

(** Newton's form on s+1 nodes is a polynomial of at most s+1
    coefficients. *)
Lemma newton_as_horner (tv fv : nat -> R) (i s : nat) :
  exists q,
    (length q <= S s)%nat /\ forall u, horner q u = newton tv fv i s u.
Proof.
  induction s as [| s (q & L & H)].
  - exists [fv i]. split; [simpl; lia | intros u; simpl; ring].
  - destruct (omega_as_horner tv i (S s)) as (w & Lw & Hw).
    destruct (horner_sum q (map (Rmult (divdiff tv fv (S s) i)) w))
      as (c & Lc & Hc).
    exists c. split.
    + rewrite length_map in Lc. lia.
    + intros u. rewrite Hc, horner_scale, H, Hw. reflexivity.
Qed.

Lemma map_fst_combine (xs ys : list R) :
  length ys = length xs -> map fst (combine xs ys) = xs.
Proof.
  revert ys. induction xs as [| a xs IH]; intros [| b ys] L;
    simpl in *; try reflexivity; try discriminate.
  f_equal. apply IH. lia.
Qed.

Lemma same_pair_elsewhere (xs ys xs' ys' : list R) (i : nat) :
  length ys = length xs -> length ys' = length xs' ->
  Permutation (combine xs ys) (combine xs' ys') ->
  (i < length xs)%nat ->
  exists j, (j < length xs')%nat
            /\ nth j xs' 0 = nth i xs 0 /\ nth j ys' 0 = nth i ys 0.
Proof.
  intros L L' HP Hi.
  assert (Hin : In (nth i xs 0, nth i ys 0) (combine xs ys)).
  { rewrite <- combine_nth by (symmetry; exact L).
    apply nth_In. rewrite length_combine. lia. }
  apply (Permutation_in _ HP) in Hin.
  destruct (In_nth _ _ (0, 0) Hin) as (j & Hj & Ej).
  rewrite length_combine in Hj.
  rewrite combine_nth in Ej by (symmetry; exact L').
  inversion Ej. exists j. repeat split; try assumption; lia.
Qed.

(** The samples may come in any order: the same pairs (x_i, y_i) in
    another order give other intermediate values and the same
    polynomial, whose value at every x is the same. *)
Theorem interpolant_any_order_of_samples
    (xs ys xs' ys' : list R) (xmin xmax : R) :
  NoDup xs -> xmin <> xmax ->
  (1 <= length xs)%nat -> (Z.of_nat (length xs) <= 65535)%Z ->
  length ys = length xs -> length ys' = length xs' ->
  Permutation (combine xs ys) (combine xs' ys') ->
  exists p p',
    Bernstein_interpolant xs ys xmin xmax = Ok p
    /\ Bernstein_interpolant xs' ys' xmin xmax = Ok p'
    /\ forall x0, bernstein_value p x0 = bernstein_value p' x0.
Proof.
  intros Hd Hb HN Hshort L L' HP.
  assert (HPx : Permutation xs xs').
  { rewrite <- (map_fst_combine xs ys L), <- (map_fst_combine xs' ys' L').
    apply Permutation_map. exact HP. }
  assert (LN : length xs' = length xs)
    by (symmetry; apply Permutation_length; exact HPx).
  assert (Hd' : NoDup xs') by (apply (Permutation_NoDup HPx); exact Hd).
  destruct (interpolant_newton_in_x xs ys xmin xmax Hd Hb HN Hshort)
    as (p & E & Hnew); [lia |].
  destruct (interpolant_facts xs' ys' xmin xmax Hd' Hb)
    as (p' & E' & _ & _ & _ & Hat & _); try lia.
  destruct (interpolant_newton_in_x xs' ys' xmin xmax Hd' Hb)
    as (p2 & E2 & Hnew'); try lia.
  rewrite E' in E2. inversion E2. subst p2. clear E2.
  exists p, p'. repeat split; try assumption.
  intros x0.
  destruct (newton_as_horner (fun k => nth k xs' 0) (fun k => nth k ys' 0)
              0 (length xs' - 1)) as (q & Lq & Hq).
  rewrite Hnew, Hnew', <- Hq.
  rewrite (newton_ext _ (fun k => nth k xs 0) _
             (fun k => horner q (nth k xs 0)) (length xs - 1)).
  - apply (newton_horner (fun k => nth k xs 0) (length xs - 1)).
    + intros a b Hab. apply abscissas_distinct; assumption.
    + lia.
    + lia.
  - intros k Hk. split; [reflexivity |].
    destruct (same_pair_elsewhere xs ys xs' ys' k L L' HP) as (j & Hj & Ex & Ey);
      [lia |].
    rewrite Hq, <- Hnew', <- Ex, <- Ey. symmetry. apply Hat. exact Hj.
  - lia.
Qed.

Lemma interpolant_any_order_of_samples_witness :
  exists p p',
    Bernstein_interpolant [0; 1; 3] [1; 2; 10] 0 4 = Ok p
    /\ Bernstein_interpolant [3; 0; 1] [10; 1; 2] 0 4 = Ok p'
    /\ forall x0, bernstein_value p x0 = bernstein_value p' x0.
Proof.
  apply (interpolant_any_order_of_samples
           [0; 1; 3] [1; 2; 10] [3; 0; 1] [10; 1; 2] 0 4).
  - repeat constructor; simpl; intros H; lra.
  - lra.
  - simpl. lia.
  - simpl. lia.
  - reflexivity.
  - reflexivity.
  - simpl. apply Permutation_sym.
    apply (Permutation_cons_app [(0, 1); (1, 2)] [] (3, 10)).
    simpl. apply Permutation_refl.
Defined.
